(** * hornet-base: transactions, recovery, B+-tree cursors and joins

    A shallow embedding of the Go sources

      - pkg/concurrency/transaction.go   (transaction manager)
      - the recovery manager             (package recovery)
      - the B+-tree cursor               (package btree)
      - pkg/query/bloom_filter.go        (bloom filter and Grace hash join)

    Go mutates objects in place; here every method takes the receiver's
    state and returns the new state next to its result.  Latches
    (sync.Mutex / sync.RWMutex, the page latches of the pager) are not
    modelled: a latch can keep a call from returning, it does not change
    what a call that returns has computed, and the properties below are
    about the values and states of calls that return.  A call that would
    suspend the calling thread inside the lock manager is an outcome of its
    own, [Blocked].  Memory is unbounded and int64 arithmetic does not
    overflow at the sizes involved (depths, cell numbers). *)

From stdpp Require Import base option numbers list strings relations sorting gmap sets.

#[local] Set Warnings "-clear-no-such-hyp".
#[local] Open Scope string_scope.
#[local] Open Scope list_scope.
#[local] Open Scope Z_scope.

(** ** Outcomes of a call

    [Ok] is a normal return with a nil error, [Err] a normal return with
    a non-nil error, [Blocked] a call that does not return because the thread
    waits in the lock manager, [Panic] a Go run-time panic. The state is kept
    in all four cases: what was mutated before stays mutated. *)

Inductive outcome (A : Type) : Type :=
| Ok (a : A)
| Err (msg : string)
| Blocked
| Panic (msg : string).
Arguments Ok {A} a.
Arguments Err {A} msg.
Arguments Blocked {A}.
Arguments Panic {A} msg.

Definition M (S A : Type) : Type := S → outcome A * S.

Definition ret {S A : Type} (a : A) : M S A := λ s, (Ok a, s).

Definition fail {S A : Type} (msg : string) : M S A := λ s, (Err msg, s).

Definition bind {S A B : Type} (m : M S A) (k : A → M S B) : M S B :=
  λ s, match m s with
       | (Ok a, s') => k a s'
       | (Err e, s') => (Err e, s')
       | (Blocked, s') => (Blocked, s')
       | (Panic e, s') => (Panic e, s')
       end.

(** A call whose returned error the caller drops ([rm.Redo(log)] as a
    statement). A blocked or panicking call still does not return. *)
Definition ignore_err {S A : Type} (m : M S A) : M S unit :=
  λ s, match m s with
       | (Ok _, s') => (Ok tt, s')
       | (Err _, s') => (Ok tt, s')
       | (Blocked, s') => (Blocked, s')
       | (Panic e, s') => (Panic e, s')
       end.

Definition get {S : Type} : M S S := λ s, (Ok s, s).
Definition modify {S : Type} (f : S → S) : M S unit := λ s, (Ok tt, f s).

Notation "'let!' x ':=' m 'in' k" := (bind m (λ x, k))
  (at level 10, x name, m at level 100, k at level 200).
Notation "m ;;; k" := (bind m (λ _, k))
  (at level 100, k at level 200, right associativity).

(** [for _, x := range xs { body x }] where a non-nil error of the body is
    returned at once. *)
Fixpoint forM_ {S A : Type} (xs : list A) (body : A → M S unit) : M S unit :=
  match xs with
  | [] => ret tt
  | x :: xs' => body x ;;; forM_ xs' body
  end.

(** ** Package concurrency *)

Module concurrency.

Inductive LockType : Type := R_LOCK | W_LOCK.

#[global] Instance LockType_eq_dec : EqDecision LockType.
Proof. solve_decision. Defined.

(** [type Resource struct { tableName string; resourceKey int64 }] *)
Record Resource : Type := mkResource { tableName : string; resourceKey : Z }.

#[global] Instance Resource_eq_dec : EqDecision Resource.
Proof. solve_decision. Defined.

#[global] Instance Resource_countable : Countable Resource.
Proof.
  refine (inj_countable' (λ r, (tableName r, resourceKey r))
                         (λ p, mkResource p.1 p.2) _).
  by intros [].
Defined.

(** A [uuid.UUID] is a 128-bit value; only its identity is used. *)
Abbreviation uuid := N (only parsing).

(** *** The lock manager

    The lock manager's file is not among the sources. The transaction
    manager calls exactly two of its methods, so it is an interface here:
    [lm_Lock] answers whether the request was granted at once ([true]) or
    the caller was put to wait ([false]); [lm_Unlock] answers with the
    error it returns, if any. *)
Class LockManagerOps (LM : Type) : Type := {
  lm_Lock : Resource → LockType → LM → bool * LM;
  lm_Unlock : Resource → LockType → LM → option string * LM
}.

(** Modelled from the spec: the lock manager of section 4.4 (its source file
    is missing). Per resource: the granted mode, the number of holders and
    the FIFO queue of waiting requests. The interface passes no caller
    identity, so an exclusive request on a resource held shared always
    waits. *)
Record LockState : Type := mkLockState {
  mode : option LockType;
  holders : nat;
  queue : list LockType
}.

Abbreviation LockTable := (gmap Resource LockState).

Definition unheld : LockState := mkLockState None 0 [].

Definition lock_state (r : Resource) (t : LockTable) : LockState :=
  default unheld (t !! r).

Definition table_Lock (r : Resource) (m : LockType) (t : LockTable) : bool * LockTable :=
  let ls := lock_state r t in
  match mode ls, m, queue ls with
  | None, _, [] => (true, <[r := mkLockState (Some m) 1 []]> t)
  | Some R_LOCK, R_LOCK, [] => (true, <[r := mkLockState (Some R_LOCK) (S (holders ls)) []]> t)
  | _, _, _ => (false, <[r := mkLockState (mode ls) (holders ls) (queue ls ++ [m])]> t)
  end.

(** Grant waiting requests in queue order while the front one is compatible
    with what is granted. *)
Fixpoint grant (md : option LockType) (n : nat) (q : list LockType) : LockState :=
  match q with
  | [] => mkLockState md n []
  | W_LOCK :: q' =>
      match md with
      | None => mkLockState (Some W_LOCK) 1 q'
      | Some _ => mkLockState md n q
      end
  | R_LOCK :: q' =>
      match md with
      | None => grant (Some R_LOCK) 1 q'
      | Some R_LOCK => grant (Some R_LOCK) (S n) q'
      | Some W_LOCK => mkLockState md n q
      end
  end.

Definition table_Unlock (r : Resource) (m : LockType) (t : LockTable) : option string * LockTable :=
  let ls := lock_state r t in
  if decide (mode ls = Some m) then
    match holders ls with
    | S (S n) => (None, <[r := mkLockState (mode ls) (S n) (queue ls)]> t)
    | _ => (None, <[r := grant None 0 (queue ls)]> t)
    end
  else (Some "lock not held in this mode", t).

#[global] Instance LockTable_ops : LockManagerOps LockTable := {
  lm_Lock := table_Lock;
  lm_Unlock := table_Unlock
}.

(** *** The waits-for graph

    Modelled from the spec: the precedence graph ([Graph], [NewGraph],
    [AddEdge], [RemoveEdge], [DetectCycle]; its source file is missing).
    Section 3: a directed graph over live transactions, an edge T→U when T
    waits for U. Nodes are transaction identifiers. *)
Abbreviation Graph := (gset (N * N)).

Definition NewGraph : Graph := ∅.

Definition AddEdge (g : Graph) (from to : uuid) : Graph := {[ (from, to) ]} ∪ g.

Definition RemoveEdge (g : Graph) (from to : uuid) : Graph := g ∖ {[ (from, to) ]}.

(** Depth-first search for [target] along the edges, from the successors of
    [cur], through at most [fuel] edges. *)
Fixpoint reaches (fuel : nat) (es : list (N * N)) (target cur : N) : bool :=
  match fuel with
  | O => false
  | S f =>
      existsb (λ e, bool_decide (e.1 = cur) &&
                    (bool_decide (e.2 = target) || reaches f es target e.2)) es
  end.

(** A cycle uses every edge at most once, so as many steps as there are
    edges suffice. *)
Definition DetectCycle (g : Graph) : bool :=
  let es := elements g in
  existsb (λ e, reaches (length es) es e.1 e.1) es.

(** The edge relation of a graph, and what a cycle is: a node that reaches
    itself through one edge or more. *)
Definition edge (g : Graph) (a b : N) : Prop := (a, b) ∈ g.

Definition cyclic (g : Graph) : Prop := ∃ x, tc (edge g) x x.

(** A walk from [a] to [c], with the list of the edges it takes. *)
Inductive walk (es : list (N * N)) : N → N → list (N * N) → Prop :=
| walk_one a b : (a, b) ∈ es → walk es a b [(a, b)]
| walk_cons a b c l : (a, b) ∈ es → walk es b c l → walk es a c ((a, b) :: l).

(** *** Transactions *)

(** [type Transaction struct { clientId; resources map[Resource]LockType }] *)
Record Transaction : Type := mkTransaction {
  clientId : N;
  resources : gmap Resource LockType
}.

Section TransactionManager.
Context {LM : Type} `{!LockManagerOps LM}.

(** [type TransactionManager struct { lm; pGraph; transactions }] *)
Record TransactionManager : Type := mkTM {
  lm : LM;
  pGraph : Graph;
  transactions : gmap N Transaction
}.

Definition set_lm (l : LM) (tm : TransactionManager) : TransactionManager :=
  mkTM l (pGraph tm) (transactions tm).
Definition set_pGraph (g : Graph) (tm : TransactionManager) : TransactionManager :=
  mkTM (lm tm) g (transactions tm).
Definition set_transactions (ts : gmap N Transaction) (tm : TransactionManager) : TransactionManager :=
  mkTM (lm tm) (pGraph tm) ts.

Definition NewTransactionManager (l : LM) : TransactionManager := mkTM l NewGraph ∅.

Definition GetTransaction (tm : TransactionManager) (id : uuid) : option Transaction :=
  transactions tm !! id.

(** [t.resources[resource] = lType] on the transaction of [id]. *)
Definition set_resource (id : uuid) (r : Resource) (lType : LockType)
    (tm : TransactionManager) : TransactionManager :=
  set_transactions
    (alter (λ t, mkTransaction (clientId t) (<[r := lType]> (resources t))) id (transactions tm)) tm.

(** [delete(t.resources, resource)] on the transaction of [id]. *)
Definition delete_resource (id : uuid) (r : Resource)
    (tm : TransactionManager) : TransactionManager :=
  set_transactions
    (alter (λ t, mkTransaction (clientId t) (delete r (resources t))) id (transactions tm)) tm.

Definition Begin (id : uuid) : M TransactionManager unit :=
  λ tm,
    match transactions tm !! id with
    | Some _ => (Err "transaction already began", tm)
    | None => (Ok tt, set_transactions (<[id := mkTransaction id ∅]> (transactions tm)) tm)
    end.

(** The inner loop of [discoverTransactions]: does the transaction hold [r]
    in a mode that conflicts with a request of type [lType]?  A Go map has
    one entry per key, so the range over [t.resources] finds at most the
    entry of [r]. *)
Definition conflicts (t : Transaction) (r : Resource) (lType : LockType) : bool :=
  match resources t !! r with
  | Some storedType => bool_decide (storedType = W_LOCK) || bool_decide (lType = W_LOCK)
  | None => false
  end.

(** The transactions that conflict with the request, in the order the range
    over [tm.transactions] visits them (Go leaves that order open; here it
    is the order of [map_to_list]). *)
Definition discoverTransactions (tm : TransactionManager) (r : Resource) (lType : LockType) : list N :=
  (map_to_list (filter (λ kt, conflicts kt.2 r lType = true) (transactions tm))).*1.

Definition addEdges (from : uuid) (deps : list N) (g : Graph) : Graph :=
  foldl (λ g' to, AddEdge g' from to) g deps.

Definition removeEdges (from : uuid) (deps : list N) (g : Graph) : Graph :=
  foldl (λ g' to, RemoveEdge g' from to) g deps.

(** The waits-for edges from [id] to each of [deps]. *)
Definition edgesFrom (id : N) (deps : list N) : Graph :=
  list_to_set ((λ u, (id, u)) <$> deps).

Definition Lock (id : uuid) (table : string) (key : Z) (lType : LockType)
    : M TransactionManager unit :=
  λ tm,
    match GetTransaction tm id with
    | None => (Err "transaction not found", tm)
    | Some t =>
        let resource := mkResource table key in
        match resources t !! resource with
        | Some lockType =>
            if bool_decide (lockType = R_LOCK) && bool_decide (lType = W_LOCK)
            then (Err "transaction does not have rights to the resource", tm)
            else (Ok tt, tm)
        | None =>
            let depTransactions := discoverTransactions tm resource lType in
            let tm1 := set_pGraph (addEdges id depTransactions (pGraph tm)) tm in
            if DetectCycle (pGraph tm1)
            then (Err "deadlock detected",
                  set_pGraph (removeEdges id depTransactions (pGraph tm1)) tm1)
            else
              let tm2 := set_resource id resource lType tm1 in
              let '(granted, l') := lm_Lock resource lType (lm tm2) in
              let tm3 := set_lm l' tm2 in
              if granted
              then (Ok tt, set_pGraph (removeEdges id depTransactions (pGraph tm3)) tm3)
              else (Blocked, tm3)
        end
    end.

Definition Unlock (id : uuid) (table : string) (key : Z) (lType : LockType)
    : M TransactionManager unit :=
  λ tm,
    match GetTransaction tm id with
    | None => (Err "transaction to unlock not found", tm)
    | Some t =>
        let resource := mkResource table key in
        match resources t !! resource with
        | None => (Err "resource to unlock not found", tm)
        | Some lockType =>
            if bool_decide (lockType ≠ lType)
            then (Err "lock type does not match", tm)
            else
              let tm1 := delete_resource id resource tm in
              let '(err, l') := lm_Unlock resource lockType (lm tm1) in
              (match err with Some e => Err e | None => Ok tt end, set_lm l' tm1)
        end
    end.

(** The loop of [Commit] over [t.resources]: the first failing unlock ends
    it. *)
Fixpoint unlockAll (rs : list (Resource * LockType)) (l : LM) : option string * LM :=
  match rs with
  | [] => (None, l)
  | (r, lType) :: rs' =>
      match lm_Unlock r lType l with
      | (Some e, l') => (Some e, l')
      | (None, l') => unlockAll rs' l'
      end
  end.

Definition Commit (id : uuid) : M TransactionManager unit :=
  λ tm,
    match transactions tm !! id with
    | None => (Err "no transactions running", tm)
    | Some t =>
        match unlockAll (map_to_list (resources t)) (lm tm) with
        | (Some e, l') => (Err e, set_lm l' tm)
        | (None, l') =>
            (Ok tt, set_transactions (delete id (transactions tm)) (set_lm l' tm))
        end
    end.

End TransactionManager.

Arguments TransactionManager LM : clear implicits.

End concurrency.

(** ** Package db

    Modelled from the spec: the database facade and its command handlers
    ([HandleCreateTable], [HandleInsert], [HandleUpdate], [HandleDelete];
    their source files are missing). Sections 4.2, 4.3 and 6: a table of
    either index kind is a map from int64 keys to int64 values; insert fails
    when the key is present, update and delete fail when it is absent. *)

Module db.

Record Table : Type := mkTable { tblType : string; rows : gmap Z Z }.

Abbreviation Database := (gmap string Table).

(** The handlers take the command as a line of text that the recovery
    manager prints with [fmt.Sprintf]; the tokenisation of that line is the
    dispatcher's. A payload is the line after tokenisation. *)
Inductive payload : Type :=
| create_table (kind name : string)      (* "create %s table %s" *)
| insert_into (key value : Z) (name : string)    (* "insert %v %v into %s" *)
| update_table (name : string) (key value : Z)   (* "update %s %v %v" *)
| delete_from (key : Z) (name : string).         (* "delete %v from %s" *)

Definition GetTable (name : string) : M Database Table :=
  λ d, match d !! name with
       | Some t => (Ok t, d)
       | None => (Err "table not found", d)
       end.

Definition set_rows (name : string) (t : Table) (rs : gmap Z Z) : M Database unit :=
  modify (λ d : Database, <[name := mkTable (tblType t) rs]> d).

Definition HandleCreateTable (p : payload) : M Database unit :=
  match p with
  | create_table kind name =>
      if bool_decide (kind = "btree") || bool_decide (kind = "hash") then
        λ d, match d !! name with
             | Some _ => (Err "table already exists", d)
             | None => (Ok tt, <[name := mkTable kind ∅]> d)
             end
      else fail "create: unknown index kind"
  | _ => fail "usage: create <btree|hash> table <table>"
  end.

Definition HandleInsert (p : payload) : M Database unit :=
  match p with
  | insert_into key value name =>
      let! t := GetTable name in
      match rows t !! key with
      | Some _ => fail "insert: key already exists"
      | None => set_rows name t (<[key := value]> (rows t))
      end
  | _ => fail "usage: insert <key> <value> into <table>"
  end.

Definition HandleUpdate (p : payload) : M Database unit :=
  match p with
  | update_table name key value =>
      let! t := GetTable name in
      match rows t !! key with
      | Some _ => set_rows name t (<[key := value]> (rows t))
      | None => fail "update: key not found"
      end
  | _ => fail "usage: update <table> <key> <value>"
  end.

Definition HandleDelete (p : payload) : M Database unit :=
  match p with
  | delete_from key name =>
      let! t := GetTable name in
      match rows t !! key with
      | Some _ => set_rows name t (delete key (rows t))
      | None => fail "delete: key not found"
      end
  | _ => fail "usage: delete <key> from <table>"
  end.

(** [find <k> from <name>]: the value, or absence. *)
Definition Find (d : Database) (name : string) (key : Z) : option Z :=
  t ← d !! name; rows t !! key.

End db.

(** ** Package recovery *)

Module recovery.
Import concurrency.

Inductive Action : Type := INSERT_ACTION | UPDATE_ACTION | DELETE_ACTION.

(** The five kinds of log record ([tableLog], [editLog], [startLog],
    [commitLog], [checkpointLog]) behind the [Log] interface. *)
Inductive Log : Type :=
| tableLog (tblType tblName : string)
| editLog (id : N) (tablename : string) (action : Action) (key oldval newval : Z)
| startLog (id : N)
| commitLog (id : N)
| checkpointLog (ids : list N).

Definition isEditLog (l : option Log) : bool :=
  match l with
  | Some (editLog _ _ _ _ _ _) => true
  | _ => false
  end.

(** Modelled from the spec: where [readLogs] finds the checkpoint (its source
    is missing). Section 4.6, step 2: the last [checkpoint] record; position
    0 when the log has none. *)
Fixpoint lastCheckpoint (logs : list Log) : option nat :=
  match logs with
  | [] => None
  | l :: rest =>
      match lastCheckpoint rest with
      | Some i => Some (S i)
      | None => match l with checkpointLog _ => Some O | _ => None end
      end
  end.

Section RecoveryManager.
Context {LM : Type} `{!LockManagerOps LM}.

(** [type RecoveryManager struct { d; tm; txStack; fd; mtx }]. [d] and [tm]
    are pointers to the one database and the one transaction manager of the
    process, so their state lives here. [fd] is the log file, a record per
    line. [recoveryFolder] is the [-recovery/] directory beside the
    database directory, if it exists. A slot of a transaction's stack holds
    a nil interface value ([None]) or a record. *)
Record RecoveryManager : Type := mkRM {
  d : db.Database;
  tm : TransactionManager LM;
  txStack : gmap N (list (option Log));
  fd : list Log;
  recoveryFolder : option db.Database
}.

Definition liftDb {A : Type} (m : M db.Database A) : M RecoveryManager A :=
  λ rm, let '(r, d') := m (d rm) in
        (r, mkRM d' (tm rm) (txStack rm) (fd rm) (recoveryFolder rm)).

Definition liftTm {A : Type} (m : M (TransactionManager LM) A) : M RecoveryManager A :=
  λ rm, let '(r, tm') := m (tm rm) in
        (r, mkRM (d rm) tm' (txStack rm) (fd rm) (recoveryFolder rm)).

Definition set_txStack (f : gmap N (list (option Log)) → gmap N (list (option Log)))
    : M RecoveryManager unit :=
  modify (λ rm, mkRM (d rm) (tm rm) (f (txStack rm)) (fd rm) (recoveryFolder rm)).

(** Appends the record's line to the log file and syncs. No caller looks at
    the error it returns. *)
Definition writeToBuffer (l : Log) : M RecoveryManager unit :=
  modify (λ rm, mkRM (d rm) (tm rm) (txStack rm) (fd rm ++ [l]) (recoveryFolder rm)).

Definition Table (tblType tblName : string) : M RecoveryManager unit :=
  writeToBuffer (tableLog tblType tblName).

Definition Edit (clientId : uuid) (table : string) (action : Action)
    (key oldval newval : Z) : M RecoveryManager unit :=
  let el := editLog clientId table action key oldval newval in
  writeToBuffer el ;;;
  set_txStack (λ st, <[clientId := default [] (st !! clientId) ++ [Some el]]> st).

(** [make([]Log, 1)] is a slice holding one nil; the start record is
    appended behind it. *)
Definition Start (clientId : uuid) : M RecoveryManager unit :=
  let sl := startLog clientId in
  writeToBuffer sl ;;;
  set_txStack (λ st, <[clientId := [None]]> st) ;;;
  set_txStack (λ st, <[clientId := default [] (st !! clientId) ++ [Some sl]]> st).

Definition Commit (clientId : uuid) : M RecoveryManager unit :=
  writeToBuffer (commitLog clientId) ;;;
  set_txStack (λ st, delete clientId st).

(** Copies the database directory to the recovery directory. *)
Definition Delta : M RecoveryManager unit :=
  modify (λ rm, mkRM (d rm) (tm rm) (txStack rm) (fd rm) (Some (d rm))).

(** All pages are flushed first, so the directory that [Delta] copies holds
    the tables as they are in memory. The identifiers come out in the order
    of the range over [rm.txStack] (here: of [map_to_list]). *)
Definition Checkpoint : M RecoveryManager unit :=
  let! rm := get in
  let keys := (map_to_list (txStack rm)).*1 in
  writeToBuffer (checkpointLog keys) ;;;
  Delta.

(** [err := first; if err != nil { err = second; ... }]: the second action
    runs when the first returns an error, on the state the first left. *)
Definition or_else {S : Type} (first second : M S unit) : M S unit :=
  λ s, match first s with
       | (Err _, s') => second s'
       | r => r
       end.

Definition Redo (log : Log) : M RecoveryManager unit :=
  match log with
  | tableLog tblType tblName =>
      liftDb (db.HandleCreateTable (db.create_table tblType tblName))
  | editLog _ tablename action key _ newval =>
      match action with
      | INSERT_ACTION =>
          or_else (liftDb (db.HandleInsert (db.insert_into key newval tablename)))
                  (liftDb (db.HandleUpdate (db.update_table tablename key newval)))
      | UPDATE_ACTION =>
          or_else (liftDb (db.HandleUpdate (db.update_table tablename key newval)))
                  (liftDb (db.HandleInsert (db.insert_into key newval tablename)))
      | DELETE_ACTION =>
          liftDb (db.HandleDelete (db.delete_from key tablename))
      end
  | _ => fail "can only redo edit logs"
  end.

(** Modelled from the spec: the transactional command handlers of package
    recovery ([HandleInsert], [HandleUpdate], [HandleDelete] with a
    transaction manager, a recovery manager and a client; their source file
    is missing). Section 2, data flow: (a) take the resource lock through
    the transaction manager, (b) write the Edit record through the recovery
    manager, (c) mutate the index. Writes take the exclusive lock. The old
    value of an update or delete is the value found under the key. *)
Definition findOld (name : string) (key : Z) : M RecoveryManager Z :=
  λ rm, match db.Find (d rm) name key with
        | Some v => (Ok v, rm)
        | None => (Err "key not found", rm)
        end.

Definition HandleInsert (p : db.payload) (clientId : uuid) : M RecoveryManager unit :=
  match p with
  | db.insert_into key value name =>
      liftDb (db.GetTable name) ;;;
      liftTm (Lock clientId name key W_LOCK) ;;;
      Edit clientId name INSERT_ACTION key 0 value ;;;
      liftDb (db.HandleInsert p)
  | _ => fail "usage: insert <key> <value> into <table>"
  end.

Definition HandleUpdate (p : db.payload) (clientId : uuid) : M RecoveryManager unit :=
  match p with
  | db.update_table name key value =>
      liftDb (db.GetTable name) ;;;
      liftTm (Lock clientId name key W_LOCK) ;;;
      let! old := findOld name key in
      Edit clientId name UPDATE_ACTION key old value ;;;
      liftDb (db.HandleUpdate p)
  | _ => fail "usage: update <table> <key> <value>"
  end.

Definition HandleDelete (p : db.payload) (clientId : uuid) : M RecoveryManager unit :=
  match p with
  | db.delete_from key name =>
      liftDb (db.GetTable name) ;;;
      liftTm (Lock clientId name key W_LOCK) ;;;
      let! old := findOld name key in
      Edit clientId name DELETE_ACTION key old 0 ;;;
      liftDb (db.HandleDelete p)
  | _ => fail "usage: delete <key> from <table>"
  end.

Definition Undo (log : option Log) : M RecoveryManager unit :=
  match log with
  | Some (editLog id tablename action key oldval _) =>
      match action with
      | INSERT_ACTION => HandleDelete (db.delete_from key tablename) id
      | UPDATE_ACTION => HandleUpdate (db.update_table tablename key oldval) id
      | DELETE_ACTION => HandleInsert (db.insert_into key oldval tablename) id
      end
  | _ => fail "can only undo edit logs"
  end.

Definition panic_index {A : Type} : M RecoveryManager A :=
  λ rm, (Panic "index out of range", rm).

(** [for _, id := range ids { rm.tm.Begin(id); activeTxs[id] = true }] *)
Fixpoint seedActive (ids : list N) (activeTxs : gset N) : M RecoveryManager (gset N) :=
  match ids with
  | [] => ret activeTxs
  | id :: rest =>
      ignore_err (liftTm (Begin id)) ;;;
      seedActive rest ({[id]} ∪ activeTxs)
  end.

(** The redo part: [for i := checkpointPos; i < len(logs); i++], with [n]
    iterations left and the loop variable at [i]. *)
Fixpoint redoLoop (n i : nat) (logs : list Log) (activeTxs : gset N)
    : M RecoveryManager (gset N) :=
  match n with
  | O => ret activeTxs
  | S n' =>
      match logs !! i with
      | None => panic_index
      | Some log =>
          match log with
          | tableLog _ _ | editLog _ _ _ _ _ _ =>
              ignore_err (Redo log) ;;;
              redoLoop n' (S i) logs activeTxs
          | startLog id =>
              ignore_err (liftTm (Begin id)) ;;;
              redoLoop n' (S i) logs ({[id]} ∪ activeTxs)
          | commitLog id =>
              Commit id ;;;
              ignore_err (liftTm (concurrency.Commit id)) ;;;
              redoLoop n' (S i) logs (activeTxs ∖ {[id]})
          | checkpointLog _ => redoLoop n' (S i) logs activeTxs
          end
      end
  end.

(** The body of the undo part's loop, for the record [log]. *)
Definition undoStep (activeTxs : gset N) (log : Log) : M RecoveryManager unit :=
  match log with
  | editLog id _ _ _ _ _ =>
      if bool_decide (id ∈ activeTxs) then ignore_err (Undo (Some log)) else ret tt
  | startLog id =>
      if bool_decide (id ∈ activeTxs)
      then Commit id ;;; ignore_err (liftTm (concurrency.Commit id))
      else ret tt
  | _ => ret tt
  end.

(** The undo part: [for i := len(logs) - 1; i >= 0; i--]; [undoLoop n]
    runs the iterations i = n-1, ..., 0. *)
Fixpoint undoLoop (n : nat) (logs : list Log) (activeTxs : gset N)
    : M RecoveryManager unit :=
  match n with
  | O => ret tt
  | S i =>
      match logs !! i with
      | None => panic_index
      | Some log => undoStep activeTxs log ;;; undoLoop i logs activeTxs
      end
  end.

(** [Recover] after [readLogs] has returned the records and the position of
    the checkpoint. *)
Definition replay (logs : list Log) (checkpointPos : nat) : M RecoveryManager unit :=
  match logs !! checkpointPos with
  | None => panic_index
  | Some l =>
      let! seeded :=
        match l with
        | checkpointLog ids => seedActive ids ∅
        | _ => ret ∅
        end in
      let! activeTxs := redoLoop (length logs - checkpointPos) checkpointPos logs seeded in
      undoLoop (length logs) logs activeTxs
  end.

(** Modelled from the spec: [readLogs] (its source is missing). Section 4.6,
    step 2: all records of the log file in order, and the position of the
    last checkpoint. *)
Definition readLogs : M RecoveryManager (list Log * nat) :=
  λ rm, (Ok (fd rm, default O (lastCheckpoint (fd rm))), rm).

Definition Recover : M RecoveryManager unit :=
  let! r := readLogs in
  replay r.1 r.2.

(** The loop of [Rollback]: [for i := len(logs) - 1; i >= 1; i--];
    [rollbackLoop n] starts with the loop variable at n-1. *)
Fixpoint rollbackLoop (n : nat) (logs : list (option Log)) : M RecoveryManager unit :=
  match n with
  | O => ret tt
  | S i =>
      if bool_decide (1 ≤ i)%nat then
        match logs !! i with
        | None => panic_index
        | Some log =>
            (if isEditLog log then Undo log else ret tt) ;;;
            rollbackLoop i logs
        end
      else ret tt
  end.

Definition Rollback (clientId : uuid) : M RecoveryManager unit :=
  let! rm := get in
  match txStack rm !! clientId with
  | None => fail "transaction not found"
  | Some logs =>
      rollbackLoop (length logs) logs ;;;
      Commit clientId ;;;
      ignore_err (liftTm (concurrency.Commit clientId))
  end.

(** [Prime]: from what the database directory and the recovery directory
    hold, the database that is opened and the recovery directory afterwards.
    A missing database directory is opened empty, after the recovery
    directory was made; a recovery directory replaces the database
    directory. *)
Definition Prime (dbFolder recoveryFolder : option db.Database)
    : db.Database * option db.Database :=
  match dbFolder with
  | None => (∅, Some (default ∅ recoveryFolder))
  | Some onDisk =>
      match recoveryFolder with
      | None => (onDisk, None)
      | Some snapshot => (snapshot, Some snapshot)
      end
  end.

(** What a new process starts from after the old one was killed: the
    database that [Prime] opens (the database directory is taken to hold the
    tables as the old process had them; with a recovery directory it does
    not matter what it holds), a new transaction manager over a new lock
    manager [l0], an empty [txStack], and the log file as it was left. *)
Definition restart (l0 : LM) (old : RecoveryManager) : RecoveryManager :=
  let '(opened, folder) := Prime (Some (d old)) (recoveryFolder old) in
  mkRM opened (NewTransactionManager l0) ∅ (fd old) folder.

End RecoveryManager.

Arguments RecoveryManager LM : clear implicits.

End recovery.

(** ** Package btree: cursors *)

Module btree.

(** [BTreeEntry]: a key and a value, read with [GetKey] and [GetValue]. *)
Record BTreeEntry : Type := mkEntry { GetKey : Z; GetValue : Z }.

(** A leaf is a page: the header's [numKeys], the cell area of the page and
    the page number of the right sibling (-1 at the rightmost leaf). The
    cell area may hold more cells than [numKeys] says: delete only shifts
    cells and lowers [numKeys]. *)
Record LeafNode : Type := mkLeaf {
  numKeys : Z;
  cells : list BTreeEntry;
  rightSiblingPN : Z
}.

Record InternalNode : Type := mkInternal {
  inumKeys : Z;
  keys : list Z;
  pns : list Z
}.

Inductive Node : Type :=
| LEAF_NODE (l : LeafNode)
| INTERNAL_NODE (n : InternalNode).

(** [table.pager] maps a page number to the node stored in that page;
    [GetPage] fails on a page number it does not hold. *)
Record BTreeIndex : Type := mkIndex {
  pager : gmap Z Node;
  rootPN : Z
}.

Record BTreeCursor : Type := mkCursor {
  cellnum : Z;
  isEnd : bool;
  curNode : LeafNode
}.

Definition GetPage (table : BTreeIndex) (pn : Z) : option Node := pager table !! pn.

(** [pageToLeafNode] of the page [pn]. A page that holds no leaf is treated
    like a page that cannot be read. *)
Definition GetLeaf (table : BTreeIndex) (pn : Z) : option LeafNode :=
  match GetPage table pn with
  | Some (LEAF_NODE l) => Some l
  | _ => None
  end.

(** [node.getEntry(i)] reads cell [i] of the page, whatever [numKeys] is;
    bytes never written are zero. *)
Definition getEntry (node : LeafNode) (i : Z) : BTreeEntry :=
  if bool_decide (0 ≤ i) then default (mkEntry 0 0) (cells node !! Z.to_nat i)
  else mkEntry 0 0.

Definition getPNAt (node : InternalNode) (i : Z) : Z :=
  if bool_decide (0 ≤ i) then default 0 (pns node !! Z.to_nat i) else 0.

(** The descent of [TableStart] and [TableEnd]: from a page down the
    children that [pick] chooses until a leaf is met. [None]: no leaf within
    [fuel] levels. *)
Fixpoint descend (fuel : nat) (pick : InternalNode → Z) (table : BTreeIndex) (pn : Z)
    : option (outcome LeafNode) :=
  match GetPage table pn with
  | None => Some (Err "page not found")
  | Some (LEAF_NODE l) => Some (Ok l)
  | Some (INTERNAL_NODE n) =>
      match fuel with
      | O => None
      | S f => descend f pick table (pick n)
      end
  end.

Definition TableStart (fuel : nat) (table : BTreeIndex) : option (outcome BTreeCursor) :=
  match descend fuel (λ n, getPNAt n 0) table (rootPN table) with
  | None => None
  | Some (Ok leftmostNode) =>
      Some (Ok (mkCursor 0 (bool_decide (numKeys leftmostNode = 0)) leftmostNode))
  | Some (Err e) => Some (Err e)
  | Some Blocked => Some Blocked
  | Some (Panic e) => Some (Panic e)
  end.

Definition TableEnd (fuel : nat) (table : BTreeIndex) : option (outcome BTreeCursor) :=
  match descend fuel (λ n, getPNAt n (inumKeys n)) table (rootPN table) with
  | None => None
  | Some (Ok rightmostNode) =>
      Some (Ok (mkCursor (numKeys rightmostNode - 1) false rightmostNode))
  | Some (Err e) => Some (Err e)
  | Some Blocked => Some Blocked
  | Some (Panic e) => Some (Panic e)
  end.

(** Modelled from the spec: [keyToNodeEntry] (its source is missing).
    Section 4.2: at an internal node the child is found by a search over the
    node's keys, child i holding the keys from key i-1 up to, not including,
    key i; at the leaf the answer is the cell of the key or, when the key is
    absent, its insertion position. On sorted keys the binary search finds
    the positions computed here. *)
Definition childIndex (n : InternalNode) (key : Z) : Z :=
  Z.of_nat (List.length (filter (λ k, k ≤ key) (take (Z.to_nat (inumKeys n)) (keys n)))).

(** The index of the first cell whose key is not below [key]; the number of
    cells when there is none. *)
Fixpoint insertionPoint (es : list BTreeEntry) (key : Z) : nat :=
  match es with
  | [] => O
  | e :: es' => if bool_decide (GetKey e < key) then S (insertionPoint es' key) else O
  end.

Definition searchLeaf (l : LeafNode) (key : Z) : Z :=
  Z.of_nat (insertionPoint (take (Z.to_nat (numKeys l)) (cells l)) key).

Definition keyToNodeEntry (fuel : nat) (table : BTreeIndex) (pn : Z) (key : Z)
    : option (outcome (LeafNode * Z)) :=
  match descend fuel (λ n, getPNAt n (childIndex n key)) table pn with
  | None => None
  | Some (Ok leaf) => Some (Ok (leaf, searchLeaf leaf key))
  | Some (Err e) => Some (Err e)
  | Some Blocked => Some Blocked
  | Some (Panic e) => Some (Panic e)
  end.

Definition TableFind (fuel : nat) (table : BTreeIndex) (key : Z)
    : option (outcome BTreeCursor) :=
  match keyToNodeEntry fuel table (rootPN table) key with
  | None => None
  | Some (Ok (leaf, cellnum)) =>
      Some (Ok (mkCursor cellnum (bool_decide (cellnum = numKeys leaf)) leaf))
  | Some (Err e) => Some (Err e)
  | Some Blocked => Some Blocked
  | Some (Panic e) => Some (Panic e)
  end.

(** [StepForward] calls itself to skip an empty leaf; [fuel] bounds the
    depth of that recursion ([None] when it is used up). The result is the
    returned [atEnd] and the cursor as the call leaves it. *)
Fixpoint StepForward (fuel : nat) (table : BTreeIndex) (cursor : BTreeCursor)
    : option (bool * BTreeCursor) :=
  if bool_decide (cellnum cursor + 1 >= numKeys (curNode cursor)) then
    let nextPN := rightSiblingPN (curNode cursor) in
    if bool_decide (nextPN < 0) then Some (true, cursor)
    else
      match GetLeaf table nextPN with
      | None => Some (true, cursor)
      | Some nextNode =>
          let cursor' := mkCursor 0 (isEnd cursor) nextNode in
          if bool_decide (cellnum cursor' = numKeys nextNode) then
            match fuel with
            | O => None
            | S f => StepForward f table cursor'
            end
          else Some (false, cursor')
      end
  else Some (false, mkCursor (cellnum cursor + 1) (isEnd cursor) (curNode cursor)).

Definition IsEnd (cursor : BTreeCursor) : bool := isEnd cursor.

Definition GetEntry (cursor : BTreeCursor) : outcome BTreeEntry :=
  if isEnd cursor then Err "getEntry: entry is non-existent"
  else Ok (getEntry (curNode cursor) (cellnum cursor)).

(** The loop of [TableFindRange]; [fuel] bounds its iterations. The result
    is the pair the function returns: the entries and the error, if any. *)
Fixpoint rangeLoop (fuel : nat) (table : BTreeIndex) (endKey : Z)
    (cursor : BTreeCursor) (curEntry : BTreeEntry) (entries : list BTreeEntry)
    : option (list BTreeEntry * option string) :=
  if bool_decide (endKey > GetKey curEntry) && negb (IsEnd cursor) then
    match fuel with
    | O => None
    | S f =>
        let entries' := entries ++ [curEntry] in
        match StepForward f table cursor with
        | None => None
        | Some (_, cursor') =>
            match GetEntry cursor' with
            | Ok curEntry' => rangeLoop f table endKey cursor' curEntry' entries'
            | Err e => Some (entries', Some e)
            | _ => None
            end
        end
    end
  else Some (entries, None).

Definition TableFindRange (fuel : nat) (table : BTreeIndex) (startKey endKey : Z)
    : option (list BTreeEntry * option string) :=
  match TableFind fuel table startKey with
  | None => None
  | Some (Ok cursor) =>
      match GetEntry cursor with
      | Ok curEntry => rangeLoop fuel table endKey cursor curEntry []
      | Err e => Some ([], Some e)
      | _ => None
      end
  | Some (Err e) => Some ([], Some e)
  | Some _ => None
  end.

(** *** The leaf level of a tree, for stating what a range query returns *)

Section leaves.
Variable table : BTreeIndex.
Implicit Types (c : BTreeCursor) (l : LeafNode) (ls : list LeafNode).

(** The cells of a leaf that its header counts. *)
Definition valid (l : LeafNode) : list BTreeEntry :=
  take (Z.to_nat (numKeys l)) (cells l).

Definition leaf_wf (l : LeafNode) : Prop :=
  0 ≤ numKeys l ≤ Z.of_nat (List.length (cells l)).

(** The leaves to the right of a leaf, following the sibling pointers
    until there is none or the page cannot be read. *)
Inductive chain : LeafNode → list LeafNode → Prop :=
| chain_end l :
    rightSiblingPN l < 0 ∨ GetLeaf table (rightSiblingPN l) = None → chain l []
| chain_next l l' ls :
    0 ≤ rightSiblingPN l → GetLeaf table (rightSiblingPN l) = Some l' →
    chain l' ls → chain l (l' :: ls).

(** The leaf level of the B+-tree invariants of section 3: from every leaf
    the chain of right siblings ends, every header counts cells that exist,
    and the keys of the leaf and of its right siblings, in this order, are
    strictly increasing. *)
Definition leaves_sorted : Prop :=
  ∀ pn l, GetLeaf table pn = Some l →
    ∃ ls, chain l ls ∧ Forall leaf_wf (l :: ls) ∧
          StronglySorted Z.lt (GetKey <$> (valid l ++ concat (valid <$> ls))).

(** The entries from the cursor on: the rest of its leaf, then the leaves to
    the right. *)
Definition ahead (c : BTreeCursor) (ls : list LeafNode) : list BTreeEntry :=
  drop (Z.to_nat (cellnum c)) (valid (curNode c)) ++ concat (valid <$> ls).

Definition cursor_ok (lo : Z) (c : BTreeCursor) : Prop :=
  0 ≤ cellnum c ∧
  ∃ ls, chain (curNode c) ls ∧ Forall leaf_wf (curNode c :: ls) ∧
        Forall (λ e, lo ≤ GetKey e) (ahead c ls).

(** A cursor on the last cell of a leaf that has no readable right
    sibling. *)
Definition stuck (c : BTreeCursor) : Prop :=
  cellnum c + 1 >= numKeys (curNode c) ∧
  (rightSiblingPN (curNode c) < 0 ∨ GetLeaf table (rightSiblingPN (curNode c)) = None).

Definition in_range (startKey endKey : Z) (e : BTreeEntry) : Prop :=
  startKey ≤ GetKey e < endKey.

End leaves.

End btree.

(** ** Package query: bloom filter and Grace hash join *)

Module query.

(** *** The bit set

    [bitset.BitSet] of the library bits-and-blooms/bitset, as far as the
    filter uses it: a length and the bits, kept as one number. [Set] beyond
    the length grows the set; [Test] beyond the length is false. *)
Record BitSet : Type := mkBitSet { length : N; set : N }.

Definition bitset_New (len : N) : BitSet := mkBitSet len 0.

Definition bitset_Set (b : BitSet) (i : N) : BitSet :=
  mkBitSet (N.max (length b) (i + 1)) (N.lor (set b) (N.shiftl 1 i)).

Definition bitset_Test (b : BitSet) (i : N) : bool :=
  bool_decide (i < length b)%N && N.testbit (set b) i.

(** The conversion [uint(x)] of an int64: the value modulo 2^64. *)
Definition uint (x : Z) : N := Z.to_N (x mod 2 ^ 64).

Record BloomFilter : Type := mkFilter { size : Z; bits : BitSet }.

Section BloomFilter.
(** The two hash functions of package hash ([XxHasher], [MurmurHasher]:
    key and filter size to an int64) are not among the sources; the filter
    is modelled over any two such functions. *)
Variables XxHasher MurmurHasher : Z → Z → Z.

Definition CreateFilter (size : Z) : BloomFilter :=
  mkFilter size (bitset_New (uint size)).

Definition Insert (key : Z) : M BloomFilter unit :=
  λ filter,
    let h1 := XxHasher key (size filter) in
    let h2 := MurmurHasher key (size filter) in
    (Ok tt, mkFilter (size filter) (bitset_Set (bitset_Set (bits filter) (uint h1)) (uint h2))).

Definition Contains (key : Z) : M BloomFilter bool :=
  λ filter,
    let h1 := XxHasher key (size filter) in
    let h2 := MurmurHasher key (size filter) in
    (Ok (bitset_Test (bits filter) (uint h1) && bitset_Test (bits filter) (uint h2)), filter).

(** What a client can do with a filter it holds. *)
Inductive filter_op : Type :=
| op_Insert (key : Z)
| op_Contains (key : Z).

Definition run_op (o : filter_op) (filter : BloomFilter) : BloomFilter :=
  match o with
  | op_Insert key => (Insert key filter).2
  | op_Contains key => (Contains key filter).2
  end.

Definition run_ops (os : list filter_op) (filter : BloomFilter) : BloomFilter :=
  foldl (λ f o, run_op o f) filter os.

(** The filter answers [true] for [key]. *)
Definition holds (key : Z) (filter : BloomFilter) : Prop :=
  (Contains key filter).1 = Ok true.

End BloomFilter.

(** *** Join *)

Record HashEntry : Type := mkHashEntry { GetKey : Z; GetValue : Z }.

(** [type EntryPair struct { l; r }] *)
Record EntryPair : Type := mkEntryPair { l : HashEntry; r : HashEntry }.

(** Modelled from the spec: the extendible hash table as [Join] uses it
    ([GetDepth], [GetBuckets], [ExtendTable], [GetBucketByPN]; the source of
    package hash is missing). Sections 3 and 4.3: a global depth, a
    directory of bucket page numbers, and the bucket pages with their
    entries; [ExtendTable] doubles the directory, every slot duplicated,
    and adds one to the global depth, without splitting a bucket. *)
Record HashTable : Type := mkHashTable {
  depth : Z;
  buckets : list Z;
  pages : gmap Z (list HashEntry)
}.

Definition GetDepth (t : HashTable) : Z := depth t.
Definition GetBuckets (t : HashTable) : list Z := buckets t.

Definition ExtendTable (t : HashTable) : HashTable :=
  mkHashTable (depth t + 1) (buckets t ++ buckets t) (pages t).

Definition GetBucketByPN (t : HashTable) (pn : Z) : option (list HashEntry) := pages t !! pn.

Definition swapped (e : HashEntry) : HashEntry := mkHashEntry (GetValue e) (GetKey e).

(** [probeBuckets]: the pairs sent to the results channel, in the order in
    which this call sends them. *)
Definition probeBuckets (lBucketEntries rBucketEntries : list HashEntry)
    (joinOnLeftKey joinOnRightKey : bool) : list EntryPair :=
  lEntry ← lBucketEntries;
  rEntry ← rBucketEntries;
  if bool_decide (GetKey lEntry = GetKey rEntry) then
    [ mkEntryPair (if joinOnLeftKey then lEntry else swapped lEntry)
                  (if joinOnRightKey then rEntry else swapped rEntry) ]
  else [].

(** The loop that makes both tables the same global size. [None]: still
    unequal after [fuel] extensions. *)
Fixpoint equalise (fuel : nat) (leftHashTable rightHashTable : HashTable)
    : option (HashTable * HashTable) :=
  if bool_decide (GetDepth leftHashTable ≠ GetDepth rightHashTable) then
    match fuel with
    | O => None
    | S f =>
        if bool_decide (GetDepth leftHashTable < GetDepth rightHashTable)
        then equalise f (ExtendTable leftHashTable) rightHashTable
        else equalise f leftHashTable (ExtendTable rightHashTable)
    end
  else Some (leftHashTable, rightHashTable).

(** The state of the probe phase: the bucket pairs seen so far and the probes
    started with [group.Go], oldest first. *)
Record ProbeState : Type := mkProbeState {
  seenList : gset (Z * Z);
  started : list (Z * Z)
}.

(** [for i, lBucketPN := range leftBuckets], at index [i] with
    [leftBuckets] the slots not yet visited. *)
Fixpoint probeLoop (leftHashTable rightHashTable : HashTable) (i : nat)
    (leftBuckets rightBuckets : list Z) : M ProbeState unit :=
  match leftBuckets with
  | [] => ret tt
  | lBucketPN :: rest =>
      λ st,
        match rightBuckets !! i with
        | None => (Panic "index out of range", st)
        | Some rBucketPN =>
            let bucketPair := (lBucketPN, rBucketPN) in
            if bool_decide (bucketPair ∈ seenList st)
            then probeLoop leftHashTable rightHashTable (S i) rest rightBuckets st
            else
              let st1 := mkProbeState ({[bucketPair]} ∪ seenList st) (started st) in
              match GetBucketByPN leftHashTable lBucketPN with
              | None => (Err "bucket page not found", st1)
              | Some _ =>
                  match GetBucketByPN rightHashTable rBucketPN with
                  | None => (Err "bucket page not found", st1)
                  | Some _ =>
                      probeLoop leftHashTable rightHashTable (S i) rest rightBuckets
                        (mkProbeState (seenList st1) (started st1 ++ [bucketPair]))
                  end
              end
        end
  end.

(** [Join] from the point where both hash indices are built: the two
    tables after the equalisation, the outcome of the probe loop and the
    probes it started. *)
Definition Join (fuel : nat) (leftHashTable rightHashTable : HashTable)
    : option (HashTable * HashTable * (outcome unit * ProbeState)) :=
  match equalise fuel leftHashTable rightHashTable with
  | None => None
  | Some (lt, rt) =>
      Some (lt, rt,
            probeLoop lt rt O (GetBuckets lt) (GetBuckets rt) (mkProbeState ∅ []))
  end.

(** The entry pairs that the started probes send, probe after probe. *)
Definition results (lt rt : HashTable) (joinOnLeftKey joinOnRightKey : bool)
    (probes : list (Z * Z)) : list EntryPair :=
  p ← probes;
  probeBuckets (default [] (GetBucketByPN lt p.1)) (default [] (GetBucketByPN rt p.2))
               joinOnLeftKey joinOnRightKey.

(** [n] extensions of a table. *)
Definition extended (n : nat) (t : HashTable) : HashTable := Nat.iter n ExtendTable t.

(** What holds of the probe state all along the loop over the directory
    [lbs], paired slot by slot with [rbs]: no probe was started twice, every
    started probe is of a pair that was seen, and every seen pair stands at
    one index of both directories. *)
Definition probe_inv (lbs rbs : list Z) (st : ProbeState) : Prop :=
  NoDup (started st) ∧
  (∀ p, p ∈ started st → p ∈ seenList st) ∧
  (∀ p, p ∈ seenList st → ∃ i, lbs !! i = Some p.1 ∧ rbs !! i = Some p.2).

End query.

(** * Vocabulary for the bloom filter's bit positions *)

Module bloom_positions.
Import query.

Section positions.
Variables XxHasher MurmurHasher : Z → Z → Z.

(** The filter after CreateFilter and the inserts of [keys], in this
    order. *)
Definition inserted (size : Z) (keys : list Z) : BloomFilter :=
  run_ops XxHasher MurmurHasher (op_Insert <$> keys) (CreateFilter size).

(** The bit positions that the inserts of [keys] set. *)
Definition positions (size : Z) (keys : list Z) : list N :=
  k ← keys; [uint (XxHasher k size); uint (MurmurHasher k size)].

(** Every set bit lies below the length, so [Test] reads the bit. *)
Definition bits_in_length (b : BitSet) : Prop :=
  ∀ i, N.testbit (set b) i = true → (i < length b)%N.

End positions.
End bloom_positions.

(** * Vocabulary for the log file and the passes of Recover *)

Module recovery_log.
Import concurrency recovery.

(** The transactions that the redo pass of [Recover] holds active after it
    has read the records [logs], having started with [activeTxs]: a start
    record adds its transaction, a commit record removes it. *)
Fixpoint activeAfter (logs : list Log) (activeTxs : gset N) : gset N :=
  match logs with
  | [] => activeTxs
  | log :: rest =>
      activeAfter rest
        match log with
        | startLog id => {[id]} ∪ activeTxs
        | commitLog id => activeTxs ∖ {[id]}
        | _ => activeTxs
        end
  end.

Section calls.
Context {LM : Type} `{!LockManagerOps LM}.

(** The call leaves every record of the log file in place and at most adds
    records behind them. *)
Definition appends {A : Type} (m : M (RecoveryManager LM) A) : Prop :=
  ∀ rm, fd rm `prefix_of` fd (m rm).2.

(** The call returns, with or without an error. *)
Definition returns {S A : Type} (m : M S A) : Prop :=
  ∀ s, match (m s).1 with Ok _ | Err _ => True | _ => False end.

(** The call does not panic. *)
Definition no_panic {S A : Type} (m : M S A) : Prop :=
  ∀ s, match (m s).1 with Panic _ => False | _ => True end.

(** The call returns nil if it returns. *)
Definition nil_or_waits {S A : Type} (m : M S A) : Prop :=
  ∀ s, match (m s).1 with Ok _ | Blocked => True | _ => False end.

End calls.

End recovery_log.

(** * Package query: building the hash index of a join side *)

Module hash_build.
Import btree.

Section buildHashIndex.
(** [hash.HashIndex] and its [Insert] are not among the sources; the
    function is modelled over any index type and any insert. The error that
    [Insert] returns is dropped by the caller. The source table is a
    B+-tree. *)
Variable HashIndex : Type.
Variable hash_Insert : Z → Z → HashIndex → HashIndex.

(** The first statement of the loop body:
    [if cursor.IsEnd() { end := cursor.StepForward(); if end { break } }].
    [inl]: the loop is left; [inr]: it goes on with the cursor. *)
Definition stepIfEnd (fuel : nat) (table : BTreeIndex) (cursor : BTreeCursor)
    : option (unit + BTreeCursor) :=
  if IsEnd cursor then
    match StepForward fuel table cursor with
    | None => None
    | Some (true, _) => Some (inl tt)
    | Some (false, cursor') => Some (inr cursor')
    end
  else Some (inr cursor).

(** The loop of [buildHashIndex]. [fuel] bounds its iterations; [None]: the
    loop is still running when the fuel is used up. *)
Fixpoint buildLoop (fuel : nat) (table : BTreeIndex) (useKey : bool)
    (cursor : BTreeCursor) (tempIndex : HashIndex) : option (outcome HashIndex) :=
  match fuel with
  | O => None
  | S f =>
      match stepIfEnd f table cursor with
      | None => None
      | Some (inl _) => Some (Ok tempIndex)
      | Some (inr cursor1) =>
          match GetEntry cursor1 with
          | Ok entry =>
              let tempIndex' :=
                if useKey then hash_Insert (GetKey entry) (GetValue entry) tempIndex
                else hash_Insert (GetValue entry) (GetValue entry) tempIndex in
              match StepForward f table cursor1 with
              | None => None
              | Some (_, cursor2) => buildLoop f table useKey cursor2 tempIndex'
              end
          | Err e => Some (Err e)
          | Blocked => Some Blocked
          | Panic e => Some (Panic e)
          end
      end
  end.

(** [opened] is what [db.GetTempDB] and [hash.OpenTable] give: the new
    index, or an error. The returned name of the file is left out. *)
Definition buildHashIndex (fuel : nat) (opened : outcome HashIndex)
    (sourceTable : BTreeIndex) (useKey : bool) : option (outcome HashIndex) :=
  match opened with
  | Ok tempIndex =>
      match TableStart fuel sourceTable with
      | None => None
      | Some (Ok cursor) => buildLoop fuel sourceTable useKey cursor tempIndex
      | Some (Err e) => Some (Err e)
      | Some Blocked => Some Blocked
      | Some (Panic e) => Some (Panic e)
      end
  | Err e => Some (Err e)
  | Blocked => Some Blocked
  | Panic e => Some (Panic e)
  end.

End buildHashIndex.

End hash_build.

(** * Package list: the doubly linked list

    A [*List] and a [*Link] are addresses in a heap of list headers and a
    heap of links; nil is [None]. Go's allocator gives an address that no
    live object has, here the first unused one. Reading through nil, or
    through an address the heap does not hold, is the run-time panic of a
    nil dereference. A value ([interface{}]) is of any type [V]. *)

Module linkedlist.

Abbreviation lid := positive (only parsing).
Abbreviation loc := positive (only parsing).

Section List.
Variable V : Type.

(** [type List struct { head *Link; tail *Link }] *)
Record List : Type := mkList { list_head : option loc; list_tail : option loc }.

(** [type Link struct { list *List; prev *Link; next *Link; value interface{} }] *)
Record Link : Type := mkLink {
  link_list : option lid;
  link_prev : option loc;
  link_next : option loc;
  link_value : V
}.

Record Heap : Type := mkHeap { lists : gmap lid List; links : gmap loc Link }.

Definition nil_deref : string := "invalid memory address or nil pointer dereference".

Definition deref_list (l : option lid) : M Heap List :=
  λ h, match l ≫= (λ a, lists h !! a) with
       | Some x => (Ok x, h)
       | None => (Panic nil_deref, h)
       end.

Definition deref_link (p : option loc) : M Heap Link :=
  λ h, match p ≫= (λ a, links h !! a) with
       | Some k => (Ok k, h)
       | None => (Panic nil_deref, h)
       end.

(** Assignments to the fields of [*l] and [*p]. *)
Definition store_list (l : option lid) (f : List → List) : M Heap unit :=
  λ h, match l with
       | Some a =>
           match lists h !! a with
           | Some x => (Ok tt, mkHeap (<[a := f x]> (lists h)) (links h))
           | None => (Panic nil_deref, h)
           end
       | None => (Panic nil_deref, h)
       end.

Definition store_link (p : option loc) (f : Link → Link) : M Heap unit :=
  λ h, match p with
       | Some a =>
           match links h !! a with
           | Some k => (Ok tt, mkHeap (lists h) (<[a := f k]> (links h)))
           | None => (Panic nil_deref, h)
           end
       | None => (Panic nil_deref, h)
       end.

Definition set_head (v : option loc) (x : List) : List := mkList v (list_tail x).
Definition set_tail (v : option loc) (x : List) : List := mkList (list_head x) v.
Definition set_list (v : option lid) (k : Link) : Link :=
  mkLink v (link_prev k) (link_next k) (link_value k).
Definition set_prev (v : option loc) (k : Link) : Link :=
  mkLink (link_list k) v (link_next k) (link_value k).
Definition set_next (v : option loc) (k : Link) : Link :=
  mkLink (link_list k) (link_prev k) v (link_value k).
Definition set_value (v : V) (k : Link) : Link :=
  mkLink (link_list k) (link_prev k) (link_next k) v.

(** [&Link{...}] *)
Definition new_link (k : Link) : M Heap loc :=
  λ h, let p := fresh (dom (links h)) in
       (Ok p, mkHeap (lists h) (<[p := k]> (links h))).

Definition NewList : M Heap lid :=
  λ h, let l := fresh (dom (lists h)) in
       (Ok l, mkHeap (<[l := mkList None None]> (lists h)) (links h)).

Definition PeekHead (list : lid) : M Heap (option loc) :=
  let! x := deref_list (Some list) in ret (list_head x).

Definition PeekTail (list : lid) : M Heap (option loc) :=
  let! x := deref_list (Some list) in ret (list_tail x).

Definition PushHead (list : lid) (value : V) : M Heap (option loc) :=
  let! x := deref_list (Some list) in
  match list_head x with
  | None =>
      let! p := new_link (mkLink (Some list) None None value) in
      store_list (Some list) (set_head (Some p)) ;;;
      let! x := deref_list (Some list) in
      store_list (Some list) (set_tail (list_head x)) ;;;
      let! x := deref_list (Some list) in
      ret (list_head x)
  | Some old =>
      let! p := new_link (mkLink (Some list) None (Some old) value) in
      store_list (Some list) (set_head (Some p)) ;;;
      (* list.head.next.prev = list.head *)
      let! x := deref_list (Some list) in
      let! k := deref_link (list_head x) in
      store_link (link_next k) (set_prev (list_head x)) ;;;
      let! x := deref_list (Some list) in
      ret (list_head x)
  end.

Definition PushTail (list : lid) (value : V) : M Heap (option loc) :=
  let! x := deref_list (Some list) in
  match list_tail x with
  | None =>
      let! p := new_link (mkLink (Some list) None None value) in
      store_list (Some list) (set_tail (Some p)) ;;;
      let! x := deref_list (Some list) in
      store_list (Some list) (set_head (list_tail x)) ;;;
      let! x := deref_list (Some list) in
      ret (list_tail x)
  | Some old =>
      let! p := new_link (mkLink (Some list) (Some old) None value) in
      store_list (Some list) (set_tail (Some p)) ;;;
      (* list.tail.prev.next = list.tail *)
      let! x := deref_list (Some list) in
      let! k := deref_link (list_tail x) in
      store_link (link_prev k) (set_next (list_tail x)) ;;;
      let! x := deref_list (Some list) in
      ret (list_tail x)
  end.

Definition GetList (link : loc) : M Heap (option lid) :=
  let! k := deref_link (Some link) in ret (link_list k).

Definition GetKey (link : loc) : M Heap V :=
  let! k := deref_link (Some link) in ret (link_value k).

Definition SetKey (link : loc) (value : V) : M Heap unit :=
  store_link (Some link) (set_value value).

Definition GetPrev (link : loc) : M Heap (option loc) :=
  let! k := deref_link (Some link) in ret (link_prev k).

Definition GetNext (link : loc) : M Heap (option loc) :=
  let! k := deref_link (Some link) in ret (link_next k).

Definition PopSelf (link : loc) : M Heap unit :=
  let! k := deref_link (Some link) in
  (match link_prev k with
   | None => store_list (link_list k) (set_head (link_next k))
   | Some _ => store_link (link_prev k) (set_next (link_next k))
   end) ;;;
  let! k := deref_link (Some link) in
  (match link_next k with
   | None => store_list (link_list k) (set_tail (link_prev k))
   | Some _ => store_link (link_next k) (set_prev (link_prev k))
   end) ;;;
  store_link (Some link) (set_list None) ;;;
  store_link (Some link) (set_prev None) ;;;
  store_link (Some link) (set_next None).

(** A loop that may run for good: [None] when it is still running after
    [fuel] iterations. *)
Definition L (A : Type) : Type := Heap → option (outcome A * Heap).

(** [for link := ...; link != nil; link = link.next { if f(link) { return link } }] *)
Fixpoint findLoop (fuel : nat) (f : loc → M Heap bool) (link : option loc) : L (option loc) :=
  match link with
  | None => λ h, Some (Ok None, h)
  | Some p =>
      match fuel with
      | O => λ _, None
      | S n =>
          λ h, match f p h with
               | (Ok true, h1) => Some (Ok (Some p), h1)
               | (Ok false, h1) =>
                   match deref_link (Some p) h1 with
                   | (Ok k, h2) => findLoop n f (link_next k) h2
                   | (Err e, h2) => Some (Err e, h2)
                   | (Blocked, h2) => Some (Blocked, h2)
                   | (Panic e, h2) => Some (Panic e, h2)
                   end
               | (Err e, h1) => Some (Err e, h1)
               | (Blocked, h1) => Some (Blocked, h1)
               | (Panic e, h1) => Some (Panic e, h1)
               end
      end
  end.

Definition Find (fuel : nat) (list : lid) (f : loc → M Heap bool) : L (option loc) :=
  λ h, match deref_list (Some list) h with
       | (Ok x, h1) => findLoop fuel f (list_head x) h1
       | (Err e, h1) => Some (Err e, h1)
       | (Blocked, h1) => Some (Blocked, h1)
       | (Panic e, h1) => Some (Panic e, h1)
       end.

(** [for link := ...; link != nil; link = link.next { f(link) }] *)
Fixpoint mapLoop (fuel : nat) (f : loc → M Heap unit) (link : option loc) : L unit :=
  match link with
  | None => λ h, Some (Ok tt, h)
  | Some p =>
      match fuel with
      | O => λ _, None
      | S n =>
          λ h, match (f p ;;; deref_link (Some p)) h with
               | (Ok k, h1) => mapLoop n f (link_next k) h1
               | (Err e, h1) => Some (Err e, h1)
               | (Blocked, h1) => Some (Blocked, h1)
               | (Panic e, h1) => Some (Panic e, h1)
               end
      end
  end.

Definition Map (fuel : nat) (list : lid) (f : loc → M Heap unit) : L unit :=
  λ h, match deref_list (Some list) h with
       | (Ok x, h1) => mapLoop fuel f (list_head x) h1
       | (Err e, h1) => Some (Err e, h1)
       | (Blocked, h1) => Some (Blocked, h1)
       | (Panic e, h1) => Some (Panic e, h1)
       end.

(** The argument of [Find] in the list commands and in the tests: a test
    [t] of the link's value. *)
Definition by_key (t : V → bool) (link : loc) : M Heap bool :=
  let! v := GetKey link in ret (t v).

(** The argument of [Map] in the tests: the value is replaced by [g] of
    it. *)
Definition update_key (g : V → V) (link : loc) : M Heap unit :=
  let! v := GetKey link in SetKey link (g v).

(** *** What a list holds

    The list [l] of the heap holds the links [pvs] (address and value), in
    this order: the header points to the first and the last, every link
    points to the header and to its neighbours. *)
Definition first_loc (pvs : list (loc * V)) (dflt : option loc) : option loc :=
  match pvs with
  | [] => dflt
  | pv :: _ => Some pv.1
  end.

Definition last_loc (pvs : list (loc * V)) (dflt : option loc) : option loc :=
  match last pvs with
  | None => dflt
  | Some pv => Some pv.1
  end.

Fixpoint seg (h : Heap) (l : lid) (prev : option loc) (pvs : list (loc * V))
    (nxt : option loc) : Prop :=
  match pvs with
  | [] => True
  | pv :: rest =>
      links h !! pv.1 = Some (mkLink (Some l) prev (first_loc rest nxt) pv.2) ∧
      seg h l (Some pv.1) rest nxt
  end.

Definition is_list (h : Heap) (l : lid) (pvs : list (loc * V)) : Prop :=
  lists h !! l = Some (mkList (first_loc pvs None) (last_loc pvs None)) ∧
  NoDup pvs.*1 ∧
  seg h l None pvs None.

End List.

Arguments mkLink {V}.
Arguments mkHeap {V}.
Arguments link_list {V}.
Arguments link_prev {V}.
Arguments link_next {V}.
Arguments link_value {V}.
Arguments lists {V}.
Arguments links {V}.
Arguments deref_list {V}.
Arguments deref_link {V}.
Arguments store_list {V}.
Arguments store_link {V}.
Arguments set_list {V}.
Arguments set_prev {V}.
Arguments set_next {V}.
Arguments set_value {V}.
Arguments new_link {V}.
Arguments NewList {V}.
Arguments PeekHead {V}.
Arguments PeekTail {V}.
Arguments PushHead {V}.
Arguments PushTail {V}.
Arguments GetList {V}.
Arguments GetKey {V}.
Arguments SetKey {V}.
Arguments GetPrev {V}.
Arguments GetNext {V}.
Arguments PopSelf {V}.
Arguments findLoop {V}.
Arguments Find {V}.
Arguments mapLoop {V}.
Arguments Map {V}.
Arguments by_key {V}.
Arguments update_key {V}.
Arguments first_loc {V}.
Arguments last_loc {V}.
Arguments seg {V}.
Arguments is_list {V}.

End linkedlist.

(** * Example states *)

Module examples.
Import concurrency.

Definition state_after {S A : Type} (m : M S A) (s : S) : S := (m s).2.

Definition tm0 : TransactionManager LockTable := NewTransactionManager ∅.

(** Transaction 1 reads ("t", 5) and nobody else holds anything. *)
Definition tm_sole_reader : TransactionManager LockTable :=
  state_after (Begin 1%N ;;; Lock 1%N "t" 5 R_LOCK) tm0.

(** Scenario 3 of section 8 up to its last step: A = 1 holds ("t", 5)
    exclusively, B = 2 holds ("t", 6) exclusively, and A waits for ("t", 6). *)
Definition tm_two_writers : TransactionManager LockTable :=
  state_after (Begin 1%N ;;; Lock 1%N "t" 5 W_LOCK ;;;
               Begin 2%N ;;; Lock 2%N "t" 6 W_LOCK ;;;
               Lock 1%N "t" 6 W_LOCK) tm0.

End examples.

Module recovery_examples.
Import concurrency recovery examples.

Definition rm0 : RecoveryManager LockTable := mkRM ∅ tm0 ∅ [] None.

(** Scenario 4 of section 8 up to the kill: the table "t" exists, T = 7
    begins, inserts (1, 100), a checkpoint is taken, T inserts (2, 200). *)
Definition scenario4 : M (RecoveryManager LockTable) unit :=
  Table "btree" "t" ;;;
  liftDb (db.HandleCreateTable (db.create_table "btree" "t")) ;;;
  liftTm (Begin 7%N) ;;;
  Start 7%N ;;;
  HandleInsert (db.insert_into 1 100 "t") 7%N ;;;
  Checkpoint ;;;
  HandleInsert (db.insert_into 2 200 "t") 7%N.

Definition crashed : RecoveryManager LockTable := state_after scenario4 rm0.

(** The restart: [Prime], a new transaction manager, then [Recover]. *)
Definition recovered : outcome unit * RecoveryManager LockTable :=
  Recover (restart ∅ crashed).

(** A table "t" that holds (1, 10). *)
Definition rm_one_row : RecoveryManager LockTable :=
  state_after (liftDb (db.HandleCreateTable (db.create_table "btree" "t")) ;;;
               liftDb (db.HandleInsert (db.insert_into 1 10 "t"))) rm0.

(** T = 7 has inserted (1, 100), updated it to 150 and inserted (2, 200). *)
Definition rm_in_flight : RecoveryManager LockTable :=
  state_after (liftDb (db.HandleCreateTable (db.create_table "btree" "t")) ;;;
               liftTm (Begin 7%N) ;;;
               Start 7%N ;;;
               HandleInsert (db.insert_into 1 100 "t") 7%N ;;;
               HandleUpdate (db.update_table "t" 1 150) 7%N ;;;
               HandleInsert (db.insert_into 2 200 "t") 7%N) rm0.

End recovery_examples.

Module btree_examples.
Import btree.

Definition leaf_a : LeafNode := mkLeaf 2 [mkEntry 1 10; mkEntry 2 20] 2.
Definition leaf_b : LeafNode := mkLeaf 2 [mkEntry 3 30; mkEntry 4 40] (-1).

(** A root with the key 3 over two leaves holding the keys 1, 2 and 3, 4. *)
Definition two_leaves : BTreeIndex :=
  mkIndex (<[0 := INTERNAL_NODE (mkInternal 1 [3] [1; 2])]>
           (<[1 := LEAF_NODE leaf_a]> (<[2 := LEAF_NODE leaf_b]> ∅))) 0.

Definition only_leaf : LeafNode := mkLeaf 1 [mkEntry 1 10] (-1).

(** A tree that is one leaf holding (1, 10), and the cursor TableStart
    returns on it. *)
Definition one_leaf : BTreeIndex := mkIndex (<[0 := LEAF_NODE only_leaf]> ∅) 0.

Definition at_first : BTreeCursor := mkCursor 0 false only_leaf.

End btree_examples.

Module query_examples.
Import query.

Definition bucket_of (keys : list Z) : list HashEntry := (λ k, mkHashEntry k (10 * k)) <$> keys.

(** Scenario 6 of section 8: a table of depth 3 whose directory of 8 slots
    shares four buckets, and a table of depth 5 whose 32 slots share eight
    buckets. *)
Definition depth3 : HashTable :=
  mkHashTable 3 [1; 2; 3; 4; 1; 2; 3; 4]
    (list_to_map [(1, bucket_of [8; 4]); (2, bucket_of [1; 5]);
                  (3, bucket_of [2; 6]); (4, bucket_of [3; 7])]).

Definition depth5 : HashTable :=
  mkHashTable 5
    ([11; 12; 13; 14; 15; 16; 17; 18] ++ [11; 12; 13; 14; 15; 16; 17; 18] ++
     [11; 12; 13; 14; 15; 16; 17; 18] ++ [11; 12; 13; 14; 15; 16; 17; 18])
    (list_to_map [(11, bucket_of [8]); (12, bucket_of [1]); (13, bucket_of [2]);
                  (14, bucket_of [3]); (15, bucket_of [4]); (16, bucket_of [5]);
                  (17, bucket_of [6]); (18, bucket_of [7])]).

End query_examples.

Module more_examples.
Import concurrency examples.

(** Transaction 1 has begun and holds nothing. *)
Definition tm_began : TransactionManager LockTable := state_after (Begin 1%N) tm0.

End more_examples.


Module build_examples.
Import btree.

(** A table without rows: the root is a leaf that counts no cell. *)
Definition no_rows : BTreeIndex := mkIndex (<[0 := LEAF_NODE (mkLeaf 0 [] (-1))]> ∅) 0.

(** A stand-in for the hash index: the inserted pairs, newest first. *)
Definition pairs_Insert (k v : Z) (idx : list (Z * Z)) : list (Z * Z) := (k, v) :: idx.

End build_examples.
(** * Properties *)

(** ** The waits-for graph: [DetectCycle] finds exactly the cycles *)

Section graph_facts.
Import concurrency.

Lemma walk_edges es a c l : walk es a c l → ∀ e, e ∈ l → e ∈ es.
Proof.
  induction 1 as [a b Hab | a b c l Hab _ IH]; intros e He.
  - apply list_elem_of_singleton in He. by subst.
  - apply elem_of_cons in He as [-> | He]; auto.
Qed.

Lemma walk_first es a c l : walk es a c l → ∃ b, (a, b) ∈ es.
Proof. destruct 1 as [a b Hab | a b c l Hab _]; by exists b. Qed.

(** The part of a walk that starts at one of its edges is a walk from the
    source of that edge. *)
Lemma walk_from_edge es x c l a b :
  walk es x c l → (a, b) ∈ l →
  ∃ l1 l2, l = l1 ++ (a, b) :: l2 ∧ walk es a c ((a, b) :: l2).
Proof.
  induction 1 as [x y Hxy | x y c l Hxy Hw IH]; intros Hin.
  - apply list_elem_of_singleton in Hin. simplify_eq.
    exists [], []. split; [done | by constructor].
  - apply elem_of_cons in Hin as [Heq | Hin].
    + simplify_eq. exists [], l. split; [done | by econstructor].
    + destruct (IH Hin) as (l1 & l2 & -> & Hw').
      exists ((x, y) :: l1), l2. by split.
Qed.

(** Every walk can be cut down to one that takes no edge twice. *)
Lemma walk_NoDup es a c l : walk es a c l → ∃ l', walk es a c l' ∧ NoDup l'.
Proof.
  induction 1 as [a b Hab | a b c l Hab Hw (l' & Hw' & Hnd)].
  - exists [(a, b)]. split; [by constructor | apply NoDup_singleton].
  - destruct (decide ((a, b) ∈ l')) as [Hin | Hnin].
    + destruct (walk_from_edge _ _ _ _ _ _ Hw' Hin) as (l1 & l2 & -> & Hw'').
      exists ((a, b) :: l2). split; [done |].
      by apply NoDup_app in Hnd as (_ & _ & Hnd).
    + exists ((a, b) :: l'). split; [by econstructor | by constructor].
Qed.

Lemma reaches_walk fuel es target cur l :
  walk es cur target l → (List.length l ≤ fuel)%nat → reaches fuel es target cur = true.
Proof.
  revert cur l. induction fuel as [| f IH]; intros cur l Hw Hlen.
  - destruct Hw; simpl in Hlen; lia.
  - simpl. apply existsb_exists.
    destruct Hw as [a b Hab | a b c l Hab Hw].
    + exists (a, b). split; [by apply list_elem_of_In |]. simpl.
      by rewrite !bool_decide_eq_true_2.
    + exists (a, b). split; [by apply list_elem_of_In |]. simpl.
      rewrite bool_decide_eq_true_2 by done. simpl.
      rewrite (IH b l Hw); [apply orb_true_r | simpl in Hlen; lia].
Qed.

Lemma walk_reaches fuel es target cur :
  reaches fuel es target cur = true → ∃ l, walk es cur target l.
Proof.
  revert cur. induction fuel as [| f IH]; intros cur Hr; [done |].
  simpl in Hr. apply existsb_exists in Hr as ([a b] & Hin & Hr).
  apply list_elem_of_In in Hin. simpl in Hr.
  apply andb_true_iff in Hr as [Ha Hr]. apply bool_decide_eq_true in Ha as ->.
  apply orb_true_iff in Hr as [Hb | Hr].
  - apply bool_decide_eq_true in Hb as ->. exists [(cur, target)]. by constructor.
  - destruct (IH _ Hr) as (l & Hw). exists ((cur, b) :: l). by econstructor.
Qed.

Lemma walk_tc (g : Graph) a c l : walk (elements g) a c l → tc (edge g) a c.
Proof.
  induction 1 as [a b Hab | a b c l Hab _ IH].
  - apply tc_once. by apply elem_of_elements in Hab.
  - eapply tc_l; [| exact IH]. by apply elem_of_elements in Hab.
Qed.

Lemma tc_walk (g : Graph) a c : tc (edge g) a c → ∃ l, walk (elements g) a c l.
Proof.
  induction 1 as [a b Hab | a b c Hab _ (l & Hw)].
  - exists [(a, b)]. constructor. by apply elem_of_elements.
  - exists ((a, b) :: l). econstructor; [by apply elem_of_elements | done].
Qed.

(** The cycle detector is sound and complete. *)
Lemma DetectCycle_cyclic (g : Graph) : DetectCycle g = true ↔ cyclic g.
Proof.
  unfold DetectCycle, cyclic. split.
  - intros Hd. apply existsb_exists in Hd as ([a b] & _ & Hr).
    apply walk_reaches in Hr as (l & Hw). exists a. by eapply walk_tc.
  - intros (x & Htc). apply tc_walk in Htc as (l & Hw).
    apply walk_NoDup in Hw as (l' & Hw & Hnd).
    assert (List.length l' ≤ List.length (elements g))%nat as Hlen.
    { apply submseteq_length, NoDup_submseteq; [done |]. by eapply walk_edges. }
    apply existsb_exists.
    destruct (walk_first _ _ _ _ Hw) as (b & Hb).
    exists (x, b). split; [by apply list_elem_of_In |]. simpl.
    by eapply reaches_walk.
Qed.

End graph_facts.

(** ** The transaction manager *)

Section transaction_facts.
Import concurrency.
Context {LM : Type} `{!LockManagerOps LM}.
Implicit Types (tm : TransactionManager LM) (id : N) (t : Transaction) (deps : list N).

Lemma elem_of_edgesFrom id deps a b :
  (a, b) ∈ edgesFrom id deps ↔ a = id ∧ b ∈ deps.
Proof.
  unfold edgesFrom. rewrite elem_of_list_to_set, list_elem_of_fmap. naive_solver.
Qed.

Lemma addEdges_union id deps (g : Graph) :
  addEdges id deps g = edgesFrom id deps ∪ g.
Proof.
  unfold addEdges, edgesFrom. revert g.
  induction deps as [| u deps IH]; intros g; simpl.
  - set_solver.
  - rewrite IH. unfold AddEdge. set_solver.
Qed.

Lemma removeEdges_difference id deps (g : Graph) :
  removeEdges id deps g = g ∖ edgesFrom id deps.
Proof.
  unfold removeEdges, edgesFrom. revert g.
  induction deps as [| u deps IH]; intros g; simpl.
  - set_solver.
  - rewrite IH. unfold RemoveEdge. set_solver.
Qed.

(** [discoverTransactions] returns exactly the transactions that hold the
    resource in a conflicting mode. *)
Lemma elem_of_discoverTransactions tm r lType u :
  u ∈ discoverTransactions tm r lType ↔
  ∃ t, transactions tm !! u = Some t ∧ conflicts t r lType = true.
Proof.
  unfold discoverTransactions. rewrite list_elem_of_fmap. split.
  - intros ([u' t] & -> & Hin). exists t.
    apply elem_of_map_to_list in Hin. by apply map_lookup_filter_Some in Hin.
  - intros (t & Hu & Hc). exists (u, t). split; [done |].
    apply elem_of_map_to_list. by apply map_lookup_filter_Some.
Qed.

Lemma conflicts_holds t r lType :
  conflicts t r lType = true ↔
  ∃ stored, resources t !! r = Some stored ∧ (stored = W_LOCK ∨ lType = W_LOCK).
Proof.
  unfold conflicts. destruct (resources t !! r) as [stored |]; [| naive_solver].
  rewrite orb_true_iff, !bool_decide_eq_true. naive_solver.
Qed.

(** What [Lock] does when the transaction already holds the resource: the
    state is left as it is; the answer is an error exactly for a shared
    holder that asks for the exclusive lock. *)
Lemma Lock_held_eq tm id t table key held lType :
  transactions tm !! id = Some t →
  resources t !! mkResource table key = Some held →
  Lock id table key lType tm =
    (if bool_decide (held = R_LOCK) && bool_decide (lType = W_LOCK)
     then Err "transaction does not have rights to the resource" else Ok tt, tm).
Proof.
  intros Ht Hr. unfold Lock, GetTransaction. rewrite Ht, Hr.
  by destruct (bool_decide (held = R_LOCK) && bool_decide (lType = W_LOCK)).
Qed.

(** What [Lock] does when the detector finds a cycle. *)
Lemma Lock_deadlock_eq tm id t table key lType :
  let r := mkResource table key in
  let deps := discoverTransactions tm r lType in
  transactions tm !! id = Some t →
  resources t !! r = None →
  DetectCycle (addEdges id deps (pGraph tm)) = true →
  Lock id table key lType tm =
    (Err "deadlock detected",
     mkTM (lm tm) (removeEdges id deps (addEdges id deps (pGraph tm))) (transactions tm)).
Proof.
  intros r deps Ht Hr Hc. unfold Lock, GetTransaction. rewrite Ht. fold r. rewrite Hr.
  fold deps. simpl. by rewrite Hc.
Qed.

Lemma Unlock_error_eq tm id t table key lType :
  transactions tm !! id = Some t →
  resources t !! mkResource table key ≠ Some lType →
  Unlock id table key lType tm =
    (Err (match resources t !! mkResource table key with
          | None => "resource to unlock not found"
          | Some _ => "lock type does not match"
          end), tm).
Proof.
  intros Ht Hr. unfold Unlock, GetTransaction. rewrite Ht.
  destruct (resources t !! mkResource table key) as [held |]; [| done].
  rewrite bool_decide_eq_true_2; [done | congruence].
Qed.

End transaction_facts.

Section transaction_claims.
Import concurrency.
Context {LM : Type} `{!LockManagerOps LM}.
Implicit Types (tm : TransactionManager LM) (id : N) (t : Transaction).

(** C2, amended. For every transaction that already holds a resource, a
    further Lock request for it leaves the whole state as it is; a holder
    in shared mode that asks for the exclusive mode is refused with an error
    (no upgrade, also when it is the only holder), and every other request
    (the same mode again, or shared while holding exclusive) succeeds. *)
Theorem C2_Lock_on_held_resource tm id t table key held lType :
  transactions tm !! id = Some t →
  resources t !! mkResource table key = Some held →
  (held = R_LOCK → lType = W_LOCK →
   Lock id table key lType tm =
     (Err "transaction does not have rights to the resource", tm)) ∧
  (held = lType ∨ held = W_LOCK → Lock id table key lType tm = (Ok tt, tm)).
Proof.
  intros Ht Hr. rewrite (Lock_held_eq _ _ _ _ _ _ _ Ht Hr). split.
  - intros -> ->. done.
  - intros [-> | ->]; by destruct lType.
Qed.

(** C3. When the waits-for edges from the requester to the conflicting
    holders close a cycle, Lock fails with the deadlock error; afterwards no
    edge from the requester to a conflicting holder is in the graph, the
    graph is what it was before the call without those edges, and the
    transactions (so the requester's resource map) and the lock manager are
    unchanged. *)
Theorem C3_Lock_deadlock_atomic tm id t table key lType :
  transactions tm !! id = Some t →
  resources t !! mkResource table key = None →
  cyclic (addEdges id (discoverTransactions tm (mkResource table key) lType) (pGraph tm)) →
  ∃ tm',
    Lock id table key lType tm = (Err "deadlock detected", tm') ∧
    (∀ u t', transactions tm !! u = Some t' →
             conflicts t' (mkResource table key) lType = true →
             (id, u) ∉ pGraph tm') ∧
    pGraph tm' =
      pGraph tm ∖ edgesFrom id (discoverTransactions tm (mkResource table key) lType) ∧
    transactions tm' = transactions tm ∧
    lm tm' = lm tm.
Proof.
  intros Ht Hr Hc. apply DetectCycle_cyclic in Hc.
  rewrite (Lock_deadlock_eq _ _ _ _ _ _ Ht Hr Hc).
  eexists. split; [reflexivity |]. simpl.
  rewrite removeEdges_difference, addEdges_union.
  set (deps := discoverTransactions tm (mkResource table key) lType).
  repeat split.
  - intros u t' Hu Hconf Hin.
    assert (u ∈ deps) as Hdep by (apply elem_of_discoverTransactions; eauto).
    assert ((id, u) ∈ edgesFrom id deps) by (by apply elem_of_edgesFrom).
    set_solver.
  - set_solver.
Qed.

(** C8. Unlock of a resource that the transaction does not hold, or holds in
    another mode than the one named, returns an error and leaves the whole
    transaction manager, the transaction's resource map and the lock manager
    with it, as it was. *)
Theorem C8_Unlock_error_unchanged tm id t table key lType :
  transactions tm !! id = Some t →
  (resources t !! mkResource table key = None ∨
   ∃ held, resources t !! mkResource table key = Some held ∧ held ≠ lType) →
  ∃ msg, Unlock id table key lType tm = (Err msg, tm).
Proof.
  intros Ht Hr. eexists. apply (Unlock_error_eq _ _ _ _ _ _ Ht).
  destruct Hr as [-> | (held & -> & Hne)]; congruence.
Qed.

End transaction_claims.

(** C2 as the spec has it fails: transaction 1 holds ("t", 5) in
    shared mode, it is the only transaction, and its request for the
    exclusive mode is refused. *)
Lemma C2_sole_reader_upgrade_refused :
  concurrency.transactions examples.tm_sole_reader =
    {[ 1%N := concurrency.mkTransaction 1
                {[ concurrency.mkResource "t" 5 := concurrency.R_LOCK ]} ]} ∧
  concurrency.Lock 1%N "t" 5 concurrency.W_LOCK examples.tm_sole_reader =
    (Err "transaction does not have rights to the resource", examples.tm_sole_reader).
Proof. split; vm_compute; reflexivity. Qed.

(** C2 at the sole reader of ("t", 5): the exclusive request is refused, the
    shared one succeeds, the state stays. *)
Lemma C2_witness :
  concurrency.Lock 1%N "t" 5 concurrency.W_LOCK examples.tm_sole_reader =
    (Err "transaction does not have rights to the resource", examples.tm_sole_reader) ∧
  concurrency.Lock 1%N "t" 5 concurrency.R_LOCK examples.tm_sole_reader =
    (Ok tt, examples.tm_sole_reader).
Proof.
  split.
  - eapply (C2_Lock_on_held_resource examples.tm_sole_reader 1%N);
      [vm_compute; reflexivity | vm_compute; reflexivity | reflexivity | reflexivity].
  - eapply (C2_Lock_on_held_resource examples.tm_sole_reader 1%N);
      [vm_compute; reflexivity | vm_compute; reflexivity | left; reflexivity].
Defined.

(** C3 at the last step of scenario 3: B asks for ("t", 5), which A holds
    while waiting for B. *)
Lemma C3_witness :
  ∃ tm',
    concurrency.Lock 2%N "t" 5 concurrency.W_LOCK examples.tm_two_writers =
      (Err "deadlock detected", tm') ∧
    ((2%N, 1%N) ∉ concurrency.pGraph tm') ∧
    concurrency.transactions tm' = concurrency.transactions examples.tm_two_writers ∧
    concurrency.lm tm' = concurrency.lm examples.tm_two_writers.
Proof.
  destruct (C3_Lock_deadlock_atomic examples.tm_two_writers 2%N
              (concurrency.mkTransaction 2 {[ concurrency.mkResource "t" 6 := concurrency.W_LOCK ]})
              "t" 5 concurrency.W_LOCK)
    as (tm' & HLock & Hedges & _ & Htxs & Hlm).
  - vm_compute; reflexivity.
  - vm_compute; reflexivity.
  - apply DetectCycle_cyclic. vm_compute; reflexivity.
  - exists tm'. repeat split; [exact HLock | | exact Htxs | exact Hlm].
    eapply Hedges; vm_compute; reflexivity.
Defined.

(** C8 at the sole reader of ("t", 5), asked to release an exclusive lock. *)
Lemma C8_witness :
  ∃ msg,
    concurrency.Unlock 1%N "t" 5 concurrency.W_LOCK examples.tm_sole_reader =
      (Err msg, examples.tm_sole_reader).
Proof.
  eapply (C8_Unlock_error_unchanged examples.tm_sole_reader 1%N).
  - vm_compute; reflexivity.
  - right. exists concurrency.R_LOCK. split; [vm_compute; reflexivity | discriminate].
Defined.

(** ** The recovery manager *)

Section recovery_facts.
Import concurrency recovery.
Context {LM : Type} `{!LockManagerOps LM}.
Implicit Types (rm : RecoveryManager LM) (logs : list Log).

(** The undo part visits the records of the whole log, last to first. *)
Lemma undoLoop_take n logs activeTxs :
  (n ≤ List.length logs)%nat →
  undoLoop n logs activeTxs = forM_ (reverse (take n logs)) (undoStep activeTxs).
Proof.
  induction n as [| i IH]; intros Hn; [done |].
  destruct (lookup_lt_is_Some_2 logs i) as [log Hlog]; [lia |].
  simpl. rewrite Hlog, (take_S_r _ _ _ Hlog), reverse_snoc. simpl.
  rewrite IH by lia. done.
Qed.

Lemma undoLoop_reverse logs activeTxs :
  undoLoop (List.length logs) logs activeTxs = forM_ (reverse logs) (undoStep activeTxs).
Proof. rewrite undoLoop_take by done. by rewrite firstn_all. Qed.

(** A step of a loop that does nothing can be dropped. *)
Lemma ret_bind {S A : Type} (k : M S A) : (ret tt ;;; k) = k.
Proof. reflexivity. Qed.

(** The loop of Rollback visits the edit records of the slots 1, 2, ... of
    the stack, last to first. *)
Lemma rollbackLoop_take n (stack : list (option Log)) :
  (n ≤ List.length stack)%nat →
  rollbackLoop n stack =
    forM_ (reverse (filter (λ l, isEditLog l) (drop 1 (take n stack)))) Undo.
Proof.
  induction n as [| i IH]; intros Hn; [done |].
  destruct (lookup_lt_is_Some_2 stack i) as [log Hlog]; [lia |].
  simpl rollbackLoop. case_bool_decide as Hi.
  - rewrite Hlog, (take_S_r _ _ _ Hlog).
    rewrite drop_app_le by (rewrite length_take; lia).
    rewrite filter_app, reverse_app, IH by lia.
    rewrite filter_cons, filter_nil.
    by destruct (isEditLog log).
  - assert (i = O) as -> by lia. by destruct stack.
Qed.

Lemma rollbackLoop_reverse (stack : list (option Log)) :
  isEditLog (default None (head stack)) = false →
  rollbackLoop (List.length stack) stack =
    forM_ (reverse (filter (λ l, isEditLog l) stack)) Undo.
Proof.
  intros Hhd. rewrite rollbackLoop_take by done. rewrite firstn_all.
  destruct stack as [| l0 stack]; [done |]. simpl in Hhd.
  rewrite filter_cons. by destruct (isEditLog l0).
Qed.

(** A handler of package db changes nothing but the database. *)
Lemma liftDb_frame {A : Type} (m : M db.Database A) rm :
  let r := liftDb m rm in
  tm r.2 = tm rm ∧ txStack r.2 = txStack rm ∧ fd r.2 = fd rm ∧
  recoveryFolder r.2 = recoveryFolder rm.
Proof. unfold liftDb. by destruct (m (d rm)). Qed.

(** Insert and update of package db, seen through [db.Find]. *)
Lemma HandleInsert_Ok key value name (dd dd' : db.Database) :
  db.HandleInsert (db.insert_into key value name) dd = (Ok tt, dd') →
  db.Find dd name key = None ∧ db.Find dd' name key = Some value.
Proof.
  unfold db.HandleInsert, db.GetTable, db.set_rows, db.Find, bind, modify, fail.
  destruct (dd !! name) as [t |] eqn:Ht; [| done]. simpl.
  destruct (db.rows t !! key) eqn:Hk; [done |]. intros [= <-].
  rewrite lookup_insert_eq. simpl. by rewrite lookup_insert_eq.
Qed.

Lemma HandleUpdate_Ok key value name (dd dd' : db.Database) :
  db.HandleUpdate (db.update_table name key value) dd = (Ok tt, dd') →
  is_Some (db.Find dd name key) ∧ db.Find dd' name key = Some value.
Proof.
  unfold db.HandleUpdate, db.GetTable, db.set_rows, db.Find, bind, modify, fail.
  destruct (dd !! name) as [t |] eqn:Ht; [| done]. simpl.
  destruct (db.rows t !! key) eqn:Hk; [| done]. intros [= <-].
  rewrite lookup_insert_eq. simpl. by rewrite lookup_insert_eq.
Qed.

Lemma HandleDelete_Ok key name (dd dd' : db.Database) :
  db.HandleDelete (db.delete_from key name) dd = (Ok tt, dd') →
  is_Some (db.Find dd name key) ∧ db.Find dd' name key = None.
Proof.
  unfold db.HandleDelete, db.GetTable, db.set_rows, db.Find, bind, modify, fail.
  destruct (dd !! name) as [t |] eqn:Ht; [| done]. simpl.
  destruct (db.rows t !! key) eqn:Hk; [| done]. intros [= <-].
  rewrite lookup_insert_eq. simpl. by rewrite lookup_delete_eq.
Qed.

(** A failing handler of package db leaves the database as it was. *)
Lemma db_handler_Err (h : db.payload → M db.Database unit) p (dd dd' : db.Database) e :
  h = db.HandleInsert ∨ h = db.HandleUpdate ∨ h = db.HandleDelete →
  h p dd = (Err e, dd') → dd' = dd.
Proof.
  intros [-> | [-> | ->]]; destruct p; simpl;
    unfold db.HandleInsert, db.HandleUpdate, db.HandleDelete, db.GetTable,
      db.set_rows, bind, modify, fail;
    try (by intros [= _ <-]);
    (destruct (dd !! name) as [t |]; simpl; [| by intros [= _ <-]]);
    destruct (db.rows t !! key); simpl; by intros [= _ <-] || done.
Qed.

End recovery_facts.

Section recovery_claims.
Import concurrency recovery.
Context {LM : Type} `{!LockManagerOps LM}.
Implicit Types (rm : RecoveryManager LM) (logs : list Log).

Lemma bind_Ok {S A B : Type} (m : M S A) (k : A → M S B) s b s' :
  bind m k s = (Ok b, s') → ∃ a s1, m s = (Ok a, s1) ∧ k a s1 = (Ok b, s').
Proof. unfold bind. destruct (m s) as [[a | e | | e] s1]; naive_solver. Qed.

Lemma liftDb_eq {A : Type} (m : M db.Database A) rm r rm' :
  liftDb m rm = (r, rm') →
  ∃ d', m (d rm) = (r, d') ∧ rm' = mkRM d' (tm rm) (txStack rm) (fd rm) (recoveryFolder rm).
Proof. unfold liftDb. destruct (m (d rm)) as [r0 d']. intros [= <- <-]. eauto. Qed.

Lemma liftDb_Err (h : db.payload → M db.Database unit) p rm e rm' :
  h = db.HandleInsert ∨ h = db.HandleUpdate ∨ h = db.HandleDelete →
  liftDb (h p) rm = (Err e, rm') → rm' = rm.
Proof.
  intros Hh Hl. apply liftDb_eq in Hl as (d' & Hm & ->).
  apply (db_handler_Err h) in Hm as ->; [by destruct rm | done].
Qed.

(** C5. Redo of an edit record: an insert record is applied by the insert
    and, when that fails, by the update of the same key to the new value; an
    update record by the update and, when that fails, by the insert; a
    delete record by the delete alone. A failed first attempt leaves the
    state as it was. So whenever Redo of an insert or update record
    succeeds, the table maps the record's key to the record's new value,
    whatever the state was before. *)
Theorem C5_Redo_fallback_chain rm id tablename action key oldval newval :
  let log := editLog id tablename action key oldval newval in
  let ins := liftDb (db.HandleInsert (db.insert_into key newval tablename)) in
  let upd := liftDb (db.HandleUpdate (db.update_table tablename key newval)) in
  let del := liftDb (db.HandleDelete (db.delete_from key tablename)) in
  (action = INSERT_ACTION →
     (∀ rm1, ins rm = (Ok tt, rm1) → Redo log rm = (Ok tt, rm1)) ∧
     (∀ e rm1, ins rm = (Err e, rm1) → rm1 = rm ∧ Redo log rm = upd rm)) ∧
  (action = UPDATE_ACTION →
     (∀ rm1, upd rm = (Ok tt, rm1) → Redo log rm = (Ok tt, rm1)) ∧
     (∀ e rm1, upd rm = (Err e, rm1) → rm1 = rm ∧ Redo log rm = ins rm)) ∧
  (action = DELETE_ACTION → Redo log rm = del rm) ∧
  (action ≠ DELETE_ACTION → ∀ rm',
     Redo log rm = (Ok tt, rm') → db.Find (d rm') tablename key = Some newval).
Proof.
  intros log ins upd del.
  assert (∀ e rm1, ins rm = (Err e, rm1) → rm1 = rm) as Hins.
  { intros e rm1. apply (liftDb_Err db.HandleInsert); auto. }
  assert (∀ e rm1, upd rm = (Err e, rm1) → rm1 = rm) as Hupd.
  { intros e rm1. apply (liftDb_Err db.HandleUpdate); auto. }
  assert (∀ rm1 rm2, ins rm1 = (Ok tt, rm2) →
                     db.Find (d rm2) tablename key = Some newval) as Hins_ok.
  { intros rm1 rm2 Hi. apply liftDb_eq in Hi as (d' & Hi & ->).
    by apply HandleInsert_Ok in Hi as [_ ?]. }
  assert (∀ rm1 rm2, upd rm1 = (Ok tt, rm2) →
                     db.Find (d rm2) tablename key = Some newval) as Hupd_ok.
  { intros rm1 rm2 Hu. apply liftDb_eq in Hu as (d' & Hu & ->).
    by apply HandleUpdate_Ok in Hu as [_ ?]. }
  split; [| split; [| split]].
  - intros ->. unfold log, Redo, or_else. fold ins upd. split.
    + intros rm1 Hi. by rewrite Hi.
    + intros e rm1 Hi. rewrite Hi. by rewrite (Hins _ _ Hi).
  - intros ->. unfold log, Redo, or_else. fold ins upd. split.
    + intros rm1 Hu. by rewrite Hu.
    + intros e rm1 Hu. rewrite Hu. by rewrite (Hupd _ _ Hu).
  - by intros ->.
  - intros Hact rm' HR. destruct action; [| | done]; unfold log, Redo, or_else in HR;
      fold ins upd in HR.
    + destruct (ins rm) as [[[] | e | | e] rm1] eqn:Hi; simplify_eq; eauto.
    + destruct (upd rm) as [[[] | e | | e] rm1] eqn:Hu; simplify_eq; eauto.
Qed.

(** On an existing table, Redo of an insert or update record succeeds and
    sets the key to the new value, whether the key was there or not. *)
Lemma Redo_edit_on_table rm id tablename action key oldval newval t :
  action ≠ DELETE_ACTION →
  d rm !! tablename = Some t →
  Redo (editLog id tablename action key oldval newval) rm =
    (Ok tt,
     mkRM (<[tablename := db.mkTable (db.tblType t) (<[key := newval]> (db.rows t))]> (d rm))
          (tm rm) (txStack rm) (fd rm) (recoveryFolder rm)).
Proof.
  intros Hact Ht. destruct action; [| | done]; simpl;
    unfold or_else, liftDb, db.HandleInsert, db.HandleUpdate, db.GetTable, db.set_rows,
      bind, modify, fail; rewrite Ht; simpl;
    destruct (db.rows t !! key) eqn:Hk; simpl; rewrite ?Ht, ?Hk; done.
Qed.

(** Redo is idempotent on insert and update records. *)
Lemma Redo_idempotent rm rm' id tablename action key oldval newval :
  action ≠ DELETE_ACTION →
  Redo (editLog id tablename action key oldval newval) rm = (Ok tt, rm') →
  Redo (editLog id tablename action key oldval newval) rm' = (Ok tt, rm').
Proof.
  intros Hact HR.
  destruct (d rm !! tablename) as [t |] eqn:Ht.
  - rewrite (Redo_edit_on_table _ _ _ _ _ _ _ t Hact Ht) in HR. simplify_eq.
    erewrite Redo_edit_on_table; [| done | simpl; apply lookup_insert_eq]. simpl.
    by rewrite !insert_insert_eq.
  - exfalso. destruct action; [| | done]; simpl in HR;
      unfold or_else, liftDb, db.HandleInsert, db.HandleUpdate, db.GetTable,
        bind, fail in HR; rewrite Ht in HR; simpl in HR; rewrite ?Ht in HR; done.
Qed.

End recovery_claims.

Section rollback_claims.
Import concurrency recovery.
Context {LM : Type} `{!LockManagerOps LM}.
Implicit Types (rm : RecoveryManager LM) (logs : list Log).

Lemma liftTm_frame {A : Type} (m : M (TransactionManager LM) A) rm r rm' :
  liftTm m rm = (r, rm') →
  d rm' = d rm ∧ txStack rm' = txStack rm ∧ fd rm' = fd rm.
Proof. unfold liftTm. destruct (m (tm rm)) as [r0 tm']. by intros [= <- <-]. Qed.

Lemma ignore_err_Ok {S A : Type} (m : M S A) s s' :
  ignore_err m s = (Ok tt, s') → ∃ r, m s = (r, s').
Proof. unfold ignore_err. destruct (m s) as [[a | e | | e] s1]; naive_solver. Qed.

(** What a successful [Undo] of an edit record leaves in the table. *)
Lemma Undo_Ok_Find tid tbl act k old new rm1 rm2 :
  Undo (Some (editLog tid tbl act k old new)) rm1 = (Ok tt, rm2) →
  db.Find (d rm2) tbl k = match act with INSERT_ACTION => None | _ => Some old end.
Proof.
  destruct act; simpl; intros HU.
  - apply bind_Ok in HU as (? & ? & _ & HU). apply bind_Ok in HU as (? & ? & _ & HU).
    apply bind_Ok in HU as (? & ? & _ & HU). apply bind_Ok in HU as (? & ? & _ & HU).
    apply liftDb_eq in HU as (d' & HU & ->). by apply HandleDelete_Ok in HU as [_ ?].
  - apply bind_Ok in HU as (? & ? & _ & HU). apply bind_Ok in HU as (? & ? & _ & HU).
    apply bind_Ok in HU as (? & ? & _ & HU). apply bind_Ok in HU as (? & ? & _ & HU).
    apply liftDb_eq in HU as (d' & HU & ->). by apply HandleUpdate_Ok in HU as [_ ?].
  - apply bind_Ok in HU as (? & ? & _ & HU). apply bind_Ok in HU as (? & ? & _ & HU).
    apply bind_Ok in HU as (? & ? & _ & HU).
    apply liftDb_eq in HU as (d' & HU & ->). by apply HandleInsert_Ok in HU as [_ ?].
Qed.


End rollback_claims.

(** C5 at a table that already holds key 1: Redo of an insert record for key
    1 ends with the new value under the key. *)
Lemma C5_witness :
  db.Find
    (recovery.d (recovery.Redo (recovery.editLog 9 "t" recovery.INSERT_ACTION 1 0 100)
                               recovery_examples.rm_one_row).2) "t" 1 = Some 100.
Proof.
  eapply (C5_Redo_fallback_chain recovery_examples.rm_one_row 9%N "t"
            recovery.INSERT_ACTION 1 0 100).
  - discriminate.
  - vm_compute; reflexivity.
Defined.


(** The rollback of the example returns nil and leaves both keys absent. *)
Example Rollback_in_flight :
  (recovery.Rollback 7%N recovery_examples.rm_in_flight).1 = Ok tt ∧
  db.Find (recovery.d (recovery.Rollback 7%N recovery_examples.rm_in_flight).2) "t" 1 = None ∧
  db.Find (recovery.d (recovery.Rollback 7%N recovery_examples.rm_in_flight).2) "t" 2 = None.
Proof. repeat split; vm_compute; reflexivity. Qed.

(** C1 as the spec has it fails: at the kill the log and the snapshot
    are those of scenario 4, the snapshot holds (1, 100), and after the
    restart key 1 is absent. *)
Lemma C1_key_1_absent_after_recovery :
  recovery.fd recovery_examples.crashed =
    [ recovery.tableLog "btree" "t"; recovery.startLog 7;
      recovery.editLog 7 "t" recovery.INSERT_ACTION 1 0 100;
      recovery.checkpointLog [7%N];
      recovery.editLog 7 "t" recovery.INSERT_ACTION 2 0 200 ] ∧
  (snapshot ← recovery.recoveryFolder recovery_examples.crashed;
   db.Find snapshot "t" 1) = Some 100 ∧
  recovery_examples.recovered.1 = Ok tt ∧
  db.Find (recovery.d recovery_examples.recovered.2) "t" 1 = None.
Proof. repeat split; vm_compute; reflexivity. Qed.

(** C1, amended. After the crash of a process that ran: Begin T, insert
    (1, 100), checkpoint, insert (2, 200), recovery starts from the state at
    the checkpoint, redoes the edit after it and then undoes every edit of T,
    the one before the checkpoint too: afterwards find 1 and find 2 both
    report absence, T is ended by a commit record and holds no lock. The undo
    pass of Recover visits the records of the whole log, last to first,
    whatever the position of the checkpoint. *)
Theorem C1_recovery_undoes_all_of_T :
  recovery_examples.recovered.1 = Ok tt ∧
  db.Find (recovery.d recovery_examples.recovered.2) "t" 1 = None ∧
  db.Find (recovery.d recovery_examples.recovered.2) "t" 2 = None ∧
  last (recovery.fd recovery_examples.recovered.2) = Some (recovery.commitLog 7) ∧
  concurrency.transactions (recovery.tm recovery_examples.recovered.2) = ∅ ∧
  (∀ (LM : Type) (ops : concurrency.LockManagerOps LM)
     (logs : list recovery.Log) (activeTxs : gset N),
     recovery.undoLoop (List.length logs) logs activeTxs =
       forM_ (reverse logs) (recovery.undoStep (LM := LM) activeTxs)).
Proof.
  split; [vm_compute; reflexivity |].
  split; [vm_compute; reflexivity |].
  split; [vm_compute; reflexivity |].
  split; [vm_compute; reflexivity |].
  split; [vm_compute; reflexivity |].
  intros LM ops logs activeTxs. apply undoLoop_reverse.
Qed.

(** ** The B+-tree cursor *)

Section cursor_facts.
Import btree.
Variable table : BTreeIndex.
Implicit Types (c : BTreeCursor) (l : LeafNode) (ls : list LeafNode).

Lemma StepForward_unfold fuel c :
  StepForward fuel table c =
    if bool_decide (cellnum c + 1 >= numKeys (curNode c)) then
      if bool_decide (rightSiblingPN (curNode c) < 0) then Some (true, c)
      else
        match GetLeaf table (rightSiblingPN (curNode c)) with
        | None => Some (true, c)
        | Some nextNode =>
            if bool_decide (0 = numKeys nextNode) then
              match fuel with
              | O => None
              | S f => StepForward f table (mkCursor 0 (isEnd c) nextNode)
              end
            else Some (false, mkCursor 0 (isEnd c) nextNode)
        end
    else Some (false, mkCursor (cellnum c + 1) (isEnd c) (curNode c)).
Proof. by destruct fuel. Qed.

(** [StepForward] never writes the [isEnd] flag. *)
Lemma StepForward_isEnd fuel c atEnd c' :
  StepForward fuel table c = Some (atEnd, c') → isEnd c' = isEnd c.
Proof.
  revert c. induction fuel as [| f IH]; intros c HS;
    rewrite StepForward_unfold in HS;
    repeat (case_bool_decide || case_match); simplify_eq; try done.
  by rewrite (IH _ HS).
Qed.

Lemma StepForward_stuck fuel c : stuck table c → StepForward fuel table c = Some (true, c).
Proof.
  intros [Hlast Hnext]. destruct fuel; simpl;
    rewrite bool_decide_eq_true_2 by done;
    (destruct Hnext as [Hneg | Hnone];
     [by rewrite bool_decide_eq_true_2 | case_bool_decide; [done | by rewrite Hnone]]).
Qed.

Lemma valid_length l : leaf_wf l → Z.of_nat (List.length (valid l)) = numKeys l.
Proof. unfold valid, leaf_wf. rewrite length_take. lia. Qed.

(** Reading a counted cell yields the entry at that place of [valid]. *)
Lemma getEntry_valid l i :
  0 ≤ i < numKeys l → leaf_wf l → valid l !! Z.to_nat i = Some (getEntry l i).
Proof.
  intros Hi Hwf. unfold getEntry, valid. rewrite bool_decide_eq_true_2 by lia.
  rewrite lookup_take_lt by lia.
  destruct (lookup_lt_is_Some_2 (cells l) (Z.to_nat i)) as [e He];
    [unfold leaf_wf in Hwf; lia |].
  by rewrite He.
Qed.

Lemma cursor_ok_entry lo c :
  cursor_ok table lo c → cellnum c < numKeys (curNode c) →
  lo ≤ GetKey (getEntry (curNode c) (cellnum c)).
Proof.
  intros (Hpos & ls & _ & Hwf & Hlo) Hlt.
  apply Forall_cons in Hwf as [Hwf _].
  pose proof (getEntry_valid (curNode c) (cellnum c) ltac:(lia) Hwf) as Hget.
  unfold ahead in Hlo. apply Forall_app in Hlo as [Hlo _].
  rewrite Forall_lookup in Hlo. apply (Hlo O). by rewrite lookup_drop, Nat.add_0_r.
Qed.

Lemma cursor_ok_next lo c l' :
  cursor_ok table lo c → ¬ rightSiblingPN (curNode c) < 0 →
  GetLeaf table (rightSiblingPN (curNode c)) = Some l' →
  cursor_ok table lo (mkCursor 0 (isEnd c) l') ∧ leaf_wf l'.
Proof.
  intros (Hpos & ls & Hch & Hwf & Hlo) Hnn Hl.
  inversion Hch as [? [? | ?] | ? l'' ls' ? Hl' Hch']; simplify_eq; [lia |].
  apply Forall_cons in Hwf as [_ Hwf]. split; [| by apply Forall_cons in Hwf as [? _]].
  split; [done |]. exists ls'. split; [done | split; [done |]].
  unfold ahead in *. simpl in *. apply Forall_app in Hlo as [_ Hlo]. by rewrite drop_0.
Qed.

Lemma cursor_ok_succ lo c :
  cursor_ok table lo c → cursor_ok table lo (mkCursor (cellnum c + 1) (isEnd c) (curNode c)).
Proof.
  intros (Hpos & ls & Hch & Hwf & Hlo). split; [simpl; lia |]. exists ls. simpl.
  split; [done | split; [done |]]. unfold ahead in *. simpl in *.
  apply Forall_app in Hlo as [Hlo1 Hlo2]. apply Forall_app. split; [| done].
  replace (Z.to_nat (cellnum c + 1)) with (Z.to_nat (cellnum c) + 1)%nat by lia.
  rewrite <- drop_drop. by apply Forall_drop.
Qed.

(** One step keeps the cursor inside the tree; it answers [false] on a
    counted cell and [true] only where it stays for good. *)
Lemma StepForward_ok lo fuel c atEnd c' :
  cursor_ok table lo c → StepForward fuel table c = Some (atEnd, c') →
  cursor_ok table lo c' ∧
  (if atEnd then stuck table c' else cellnum c' < numKeys (curNode c')).
Proof.
  revert c. induction fuel as [| f IH]; intros c Hok HS;
    rewrite StepForward_unfold in HS.
  all: case_bool_decide as Hlast;
    [| simplify_eq; split; [by apply cursor_ok_succ | simpl; lia]].
  all: case_bool_decide as Hneg;
    [simplify_eq; split; [done | split; by auto] |].
  all: destruct (GetLeaf table (rightSiblingPN (curNode c))) as [l' |] eqn:Hl;
    [| simplify_eq; split; [done | split; by auto]].
  all: destruct (cursor_ok_next lo c l' Hok Hneg Hl) as [Hok' Hwf'].
  all: case_bool_decide as Hempty;
    [| simplify_eq; split; [done | simpl; unfold leaf_wf in Hwf'; lia]].
  - done.
  - by eapply IH.
Qed.

Lemma rangeLoop_unfold fuel endKey c e entries :
  rangeLoop fuel table endKey c e entries =
    if bool_decide (endKey > GetKey e) && negb (IsEnd c) then
      match fuel with
      | O => None
      | S f =>
          match StepForward f table c with
          | None => None
          | Some (_, c') =>
              match GetEntry c' with
              | Ok e' => rangeLoop f table endKey c' e' (entries ++ [e])
              | Err msg => Some (entries ++ [e], Some msg)
              | _ => None
              end
          end
      end
    else Some (entries, None).
Proof. by destruct fuel. Qed.

(** On a cursor that stays for good, with an entry below [endKey], the loop
    of TableFindRange does not end. *)
Lemma rangeLoop_stuck fuel endKey c e entries :
  stuck table c → isEnd c = false → GetEntry c = Ok e → endKey > GetKey e →
  rangeLoop fuel table endKey c e entries = None.
Proof.
  intros Hst Hend HG Hlt. revert entries.
  induction fuel as [| f IH]; intros entries; rewrite rangeLoop_unfold;
    unfold IsEnd; rewrite Hend, bool_decide_eq_true_2 by done; simpl; [done |].
  by rewrite StepForward_stuck, HG.
Qed.

Lemma rangeLoop_in_range startKey endKey fuel c e entries res err :
  cursor_ok table startKey c → cellnum c < numKeys (curNode c) →
  e = getEntry (curNode c) (cellnum c) →
  Forall (in_range startKey endKey) entries →
  rangeLoop fuel table endKey c e entries = Some (res, err) →
  Forall (in_range startKey endKey) res.
Proof.
  revert c e entries. induction fuel as [| f IH]; intros c e entries Hok Hlt -> Hin;
    rewrite rangeLoop_unfold;
    (destruct (bool_decide (endKey > GetKey (getEntry (curNode c) (cellnum c)))
               && negb (IsEnd c)) eqn:Hcond; [| by intros [= <- _]]); [done |].
  apply andb_true_iff in Hcond as [Hhi Hend]. apply bool_decide_eq_true in Hhi.
  apply negb_true_iff in Hend. unfold IsEnd in Hend.
  assert (Forall (in_range startKey endKey)
            (entries ++ [getEntry (curNode c) (cellnum c)])) as Hin'.
  { apply Forall_app. split; [done |]. apply Forall_singleton. split; [| lia].
    by apply cursor_ok_entry. }
  destruct (StepForward f table c) as [[atEnd c'] |] eqn:HS; [| done].
  pose proof (StepForward_isEnd _ _ _ _ HS) as Hend'. rewrite Hend in Hend'.
  destruct (StepForward_ok _ _ _ _ _ Hok HS) as [Hok' Hwhere].
  unfold GetEntry. rewrite Hend'.
  destruct atEnd.
  - destruct (decide (endKey > GetKey (getEntry (curNode c') (cellnum c')))) as [Hlt' | Hge].
    + rewrite rangeLoop_stuck; [done | done | done | | done].
      unfold GetEntry. by rewrite Hend'.
    + rewrite rangeLoop_unfold, bool_decide_eq_false_2 by done. simpl. by intros [= <- _].
  - by apply IH.
Qed.

Lemma descend_leaf fuel pick pn l :
  descend fuel pick table pn = Some (Ok l) → ∃ pn', GetLeaf table pn' = Some l.
Proof.
  revert pn. induction fuel as [| f IH]; intros pn; simpl; unfold GetLeaf;
    destruct (GetPage table pn) as [[l0 | n] |] eqn:Hp; intros HD; simplify_eq.
  - exists pn. by rewrite Hp.
  - exists pn. by rewrite Hp.
  - by eapply IH.
Qed.

Lemma insertionPoint_le es key : (insertionPoint es key ≤ List.length es)%nat.
Proof. induction es as [| e es IH]; simpl; [lia |]. case_bool_decide; lia. Qed.

(** In sorted cells, no key from the insertion position on is below the
    searched key. *)
Lemma insertionPoint_lower es rest key :
  (insertionPoint es key < List.length es)%nat →
  StronglySorted Z.lt (GetKey <$> (es ++ rest)) →
  Forall (λ e, key ≤ GetKey e) (drop (insertionPoint es key) es ++ rest).
Proof.
  induction es as [| e es IH]; simpl; [lia |]. intros Hlt Hs.
  apply StronglySorted_inv in Hs as [Hs Hall].
  case_bool_decide as Hk.
  - simpl. apply IH; [lia | done].
  - simpl. apply Forall_cons. split; [lia |].
    rewrite Forall_fmap in Hall. eapply Forall_impl; [exact Hall |].
    simpl. intros x Hx. lia.
Qed.

(** C9. The entries that TableFindRange returns have their keys in the
    half-open range from startKey to endKey, endKey left out, on every tree
    whose leaves are sorted. *)
Theorem C9_TableFindRange_half_open fuel startKey endKey entries err :
  leaves_sorted table →
  TableFindRange fuel table startKey endKey = Some (entries, err) →
  Forall (λ e, startKey ≤ GetKey e ∧ GetKey e < endKey) entries.
Proof.
  intros Hsorted. unfold TableFindRange, TableFind, keyToNodeEntry.
  destruct (descend fuel _ table (rootPN table)) as [[leaf | e | | e] |] eqn:HD;
    try done; [| by intros [= <- _]].
  destruct (descend_leaf _ _ _ _ HD) as (pn & Hleaf).
  destruct (Hsorted _ _ Hleaf) as (ls & Hch & Hwf & Hs).
  unfold GetEntry. simpl. case_bool_decide as Hend; [by intros [= <- _] |].
  pose proof Hwf as Hwf0. apply Forall_cons in Hwf0 as [Hwf0 _].
  pose proof (valid_length _ Hwf0) as Hlen.
  pose proof (insertionPoint_le (valid leaf) startKey) as Hle.
  unfold searchLeaf in *. fold (valid leaf) in *.
  apply rangeLoop_in_range; [| simpl; lia | done | done].
  split; [simpl; lia |]. exists ls. split; [done | split; [done |]].
  unfold ahead. simpl. rewrite Nat2Z.id. apply insertionPoint_lower; [lia | done].
Qed.

End cursor_facts.

Section cursor_claims.
Import btree btree_examples.

(** After any StepForward, GetEntry answers by the flag the cursor had
    before the step: an error if it was set, the cell under the cursor
    if not. *)
Lemma GetEntry_after_StepForward table fuel c atEnd c' :
  StepForward fuel table c = Some (atEnd, c') →
  GetEntry c' = if isEnd c then Err "getEntry: entry is non-existent"
                else Ok (getEntry (curNode c') (cellnum c')).
Proof. intros HS. unfold GetEntry. by rewrite (StepForward_isEnd _ _ _ _ _ HS). Qed.

(** C4, the code at the failing input. On the tree of one leaf holding
    (1, 10), TableStart returns the cursor on that entry; StepForward steps
    past the rightmost leaf and returns true; GetEntry then still returns
    the entry (1, 10), and IsEnd is false. *)
Lemma C4_GetEntry_succeeds_past_the_end :
  TableStart 0 one_leaf = Some (Ok at_first) ∧
  rightSiblingPN (curNode at_first) = -1 ∧
  StepForward 0 one_leaf at_first = Some (true, at_first) ∧
  GetEntry at_first = Ok (mkEntry 1 10) ∧
  IsEnd at_first = false.
Proof. repeat split; vm_compute; reflexivity. Qed.

(** On the same tree a range query whose end lies beyond the last key never
    returns: the loop of TableFindRange waits for IsEnd or for an error of
    GetEntry. *)
Lemma TableFindRange_beyond_last_key fuel : TableFindRange fuel one_leaf 0 5 = None.
Proof.
  unfold TableFindRange.
  assert (TableFind fuel one_leaf 0 = Some (Ok at_first)) as -> by (by destruct fuel).
  simpl. apply rangeLoop_stuck; [| done | done | done].
  split; [simpl; lia | by left].
Qed.

Lemma two_leaves_sorted : leaves_sorted two_leaves.
Proof.
  intros pn l Hl. unfold GetLeaf, GetPage, two_leaves in Hl. simpl in Hl.
  rewrite !lookup_insert in Hl. repeat case_decide; simplify_eq.
  - exists [leaf_b]. split; [| split].
    + eapply chain_next; [done | done |]. apply chain_end. by left.
    + repeat constructor; simpl; lia.
    + repeat constructor; simpl; lia.
  - exists []. split; [| split].
    + apply chain_end. by left.
    + repeat constructor; simpl; lia.
    + repeat constructor; simpl; lia.
Qed.

(** C9 at the tree of two leaves and the range from 2 up to 4. *)
Lemma C9_witness :
  TableFindRange 2 two_leaves 2 4 = Some ([mkEntry 2 20; mkEntry 3 30], None) ∧
  Forall (λ e, 2 ≤ GetKey e ∧ GetKey e < 4) [mkEntry 2 20; mkEntry 3 30].
Proof.
  assert (TableFindRange 2 two_leaves 2 4 = Some ([mkEntry 2 20; mkEntry 3 30], None)) as Hrun
    by (vm_compute; reflexivity).
  split; [exact Hrun |].
  exact (C9_TableFindRange_half_open two_leaves 2 2 4 _ _ two_leaves_sorted Hrun).
Defined.

End cursor_claims.

(** ** The bloom filter *)

Section bloom_facts.
Import query.
Variables XxHasher MurmurHasher : Z → Z → Z.

Lemma bitset_Test_Set b i : bitset_Test (bitset_Set b i) i = true.
Proof.
  unfold bitset_Test, bitset_Set. simpl.
  rewrite bool_decide_eq_true_2 by lia.
  by rewrite N.lor_spec, N.shiftl_1_l, N.pow2_bits_true, orb_true_r.
Qed.

(** [Set] clears no bit. *)
Lemma bitset_Test_Set_mono b i j :
  bitset_Test b j = true → bitset_Test (bitset_Set b i) j = true.
Proof.
  unfold bitset_Test, bitset_Set. simpl. intros Ht.
  apply andb_true_iff in Ht as [Hlen Hbit]. apply bool_decide_eq_true in Hlen.
  rewrite bool_decide_eq_true_2 by lia.
  by rewrite N.lor_spec, Hbit.
Qed.

Lemma run_op_size o filter : size (run_op XxHasher MurmurHasher o filter) = size filter.
Proof. by destruct o. Qed.

Lemma Insert_holds key filter :
  holds XxHasher MurmurHasher key (Insert XxHasher MurmurHasher key filter).2.
Proof.
  unfold holds, Contains, Insert. simpl. do 2 f_equal.
  apply andb_true_iff. split.
  - apply bitset_Test_Set_mono, bitset_Test_Set.
  - apply bitset_Test_Set.
Qed.

Lemma run_op_holds key o filter :
  holds XxHasher MurmurHasher key filter → holds XxHasher MurmurHasher key (run_op XxHasher MurmurHasher o filter).
Proof.
  unfold holds. destruct o as [k | k]; [| done]. unfold Contains, Insert. simpl.
  intros [= Ht]. apply andb_true_iff in Ht as [H1 H2]. do 2 f_equal.
  apply andb_true_iff. split; by do 2 apply bitset_Test_Set_mono.
Qed.

Lemma run_ops_holds key os filter :
  holds XxHasher MurmurHasher key filter → holds XxHasher MurmurHasher key (run_ops XxHasher MurmurHasher os filter).
Proof.
  unfold run_ops. revert filter.
  induction os as [| o os IH]; intros filter Hh; simpl; [done |].
  by apply IH, run_op_holds.
Qed.

(** C10. After Insert(key), whatever inserts and look-ups follow, Contains
    of that key returns true; and Contains returns the filter as it got
    it. *)
Theorem C10_no_false_negatives (filter : BloomFilter) (key : Z) (later : list filter_op) :
  let filter' := run_ops XxHasher MurmurHasher later
                   (Insert XxHasher MurmurHasher key filter).2 in
  Contains XxHasher MurmurHasher key filter' = (Ok true, filter') ∧
  (∀ k f, (Contains XxHasher MurmurHasher k f).2 = f).
Proof.
  intros filter'. split; [| done].
  pose proof (run_ops_holds key later _ (Insert_holds key filter)) as Hh.
  unfold holds in Hh. fold filter' in Hh.
  destruct (Contains XxHasher MurmurHasher key filter') as [r f] eqn:HC.
  simpl in Hh. subst r. f_equal.
  unfold Contains in HC. by simplify_eq.
Qed.

End bloom_facts.

(** ** Join *)

Section join_facts.
Import query.
Implicit Types (lt rt : HashTable) (st : ProbeState).

Lemma equalise_unfold fuel lt rt :
  equalise fuel lt rt =
    if bool_decide (GetDepth lt ≠ GetDepth rt) then
      match fuel with
      | O => None
      | S f =>
          if bool_decide (GetDepth lt < GetDepth rt)
          then equalise f (ExtendTable lt) rt
          else equalise f lt (ExtendTable rt)
      end
    else Some (lt, rt).
Proof. by destruct fuel. Qed.

Lemma extended_depth n t : depth (extended n t) = depth t + Z.of_nat n.
Proof. induction n as [| n IH]; simpl; [lia |]. rewrite IH. lia. Qed.

Lemma extended_S n t : extended (S n) t = extended n (ExtendTable t).
Proof. unfold extended. by rewrite Nat.iter_succ_r. Qed.

(** The loop ends after as many extensions as the depths differ by, all on
    the side that was less deep. *)
Lemma equalise_spec fuel lt rt :
  (Z.to_nat (Z.abs (depth lt - depth rt)) ≤ fuel)%nat →
  equalise fuel lt rt =
    Some (extended (Z.to_nat (depth rt - depth lt)) lt,
          extended (Z.to_nat (depth lt - depth rt)) rt).
Proof.
  revert lt rt. induction fuel as [| f IH]; intros lt rt Hf;
    rewrite equalise_unfold; unfold GetDepth; case_bool_decide as Hne.
  - lia.
  - replace (depth rt - depth lt) with 0 by lia.
    by replace (depth lt - depth rt) with 0 by lia.
  - case_bool_decide as Hlt.
    + rewrite IH by (simpl; lia). simpl.
      replace (Z.to_nat (depth rt - depth lt))
        with (S (Z.to_nat (depth rt - (depth lt + 1)))) by lia.
      rewrite extended_S.
      replace (Z.to_nat (depth lt + 1 - depth rt)) with O by lia.
      by replace (Z.to_nat (depth lt - depth rt)) with O by lia.
    + rewrite IH by (simpl; lia). simpl.
      replace (Z.to_nat (depth lt - depth rt))
        with (S (Z.to_nat (depth lt - (depth rt + 1)))) by lia.
      rewrite extended_S.
      replace (Z.to_nat (depth rt + 1 - depth lt)) with O by lia.
      by replace (Z.to_nat (depth rt - depth lt)) with O by lia.
  - replace (depth rt - depth lt) with 0 by lia.
    by replace (depth lt - depth rt) with 0 by lia.
Qed.

Lemma probeLoop_inv lt rt (done rest rbs : list Z) st res st' :
  probe_inv (done ++ rest) rbs st →
  probeLoop lt rt (List.length done) rest rbs st = (res, st') →
  probe_inv (done ++ rest) rbs st'.
Proof.
  revert done st. induction rest as [| lpn rest IH]; intros done st Hinv; simpl.
  { unfold ret. by intros [= _ <-]. }
  destruct (rbs !! List.length done) as [rpn |] eqn:Hr; [| by intros [= _ <-]].
  assert ((done ++ lpn :: rest) !! List.length done = Some lpn) as Hl
    by (by rewrite lookup_app_r, Nat.sub_diag by lia).
  assert (∀ st1, probe_inv (done ++ lpn :: rest) rbs st1 →
                 probeLoop lt rt (S (List.length done)) rest rbs st1 = (res, st') →
                 probe_inv (done ++ lpn :: rest) rbs st') as Hnext.
  { intros st1 Hinv1 Hrun. specialize (IH (done ++ [lpn]) st1).
    rewrite <- app_assoc, length_app in IH. simpl in IH.
    rewrite Nat.add_1_r in IH. by apply IH. }
  destruct Hinv as (Hnd & Hsub & Hidx).
  case_bool_decide as Hseen; [by apply Hnext |].
  assert (probe_inv (done ++ lpn :: rest) rbs
            (mkProbeState ({[(lpn, rpn)]} ∪ seenList st) (started st))) as Hinv1.
  { split; [done |]. split; simpl.
    - intros p Hp. apply elem_of_union_r. by apply Hsub.
    - intros p [Hp | Hp]%elem_of_union; [| by apply Hidx].
      apply elem_of_singleton in Hp as ->. by exists (List.length done). }
  destruct (GetBucketByPN lt lpn); [| by intros [= _ <-]].
  destruct (GetBucketByPN rt rpn); [| by intros [= _ <-]].
  apply Hnext. simpl. split; [| split]; simpl.
  - apply NoDup_app. split; [done |]. split; [| apply NoDup_singleton].
    intros p Hp Hp'. apply list_elem_of_singleton in Hp' as ->. by apply Hseen, Hsub.
  - intros p [Hp | Hp]%elem_of_app.
    + apply elem_of_union_r. by apply Hsub.
    + apply list_elem_of_singleton in Hp as ->. apply elem_of_union_l. by apply elem_of_singleton.
  - destruct Hinv1 as (_ & _ & Hidx1). exact Hidx1.
Qed.

(** A pair that was seen stays seen, and was probed unless the loop ended
    with an error. *)
Lemma probeLoop_complete lt rt (done rest rbs : list Z) st st' :
  (∀ p, p ∈ seenList st → p ∈ started st) →
  probeLoop lt rt (List.length done) rest rbs st = (Ok tt, st') →
  (∀ p, p ∈ seenList st' → p ∈ started st') ∧
  (∀ p, p ∈ seenList st → p ∈ seenList st') ∧
  (∀ i lpn rpn, rest !! i = Some lpn → rbs !! (List.length done + i)%nat = Some rpn →
                (lpn, rpn) ∈ seenList st').
Proof.
  revert done st. induction rest as [| lpn rest IH]; intros done st Hall; simpl.
  { unfold ret. intros [= <-]. by repeat split. }
  destruct (rbs !! List.length done) as [rpn |] eqn:Hr; [| done].
  assert (∀ st1, (∀ p, p ∈ seenList st1 → p ∈ started st1) →
                 (∀ p, p ∈ seenList st → p ∈ seenList st1) →
                 (lpn, rpn) ∈ seenList st1 →
                 probeLoop lt rt (S (List.length done)) rest rbs st1 = (Ok tt, st') →
                 (∀ p, p ∈ seenList st' → p ∈ started st') ∧
                 (∀ p, p ∈ seenList st → p ∈ seenList st') ∧
                 (∀ i lpn' rpn', (lpn :: rest) !! i = Some lpn' →
                    rbs !! (List.length done + i)%nat = Some rpn' →
                    (lpn', rpn') ∈ seenList st')) as Hnext.
  { intros st1 Hall1 Hmono Hin Hrun. specialize (IH (done ++ [lpn]) st1 Hall1).
    rewrite length_app in IH. simpl in IH. rewrite Nat.add_1_r in IH.
    destruct (IH Hrun) as (Hall' & Hmono' & Hidx'). split; [done |].
    split; [by auto |]. intros [| i] lpn' rpn' Hl' Hr'; simpl in Hl'.
    - rewrite Nat.add_0_r in Hr'. simplify_eq. by apply Hmono'.
    - apply (Hidx' i); [done |]. by rewrite <- Nat.add_succ_comm in Hr'. }
  case_bool_decide as Hseen; [by apply Hnext |].
  destruct (GetBucketByPN lt lpn); [| done].
  destruct (GetBucketByPN rt rpn); [| done].
  apply Hnext; simpl.
  - intros p [Hp | Hp]%elem_of_union; apply elem_of_app.
    + right. apply elem_of_singleton in Hp as ->. by apply list_elem_of_singleton.
    + left. by apply Hall.
  - intros p Hp. by apply elem_of_union_r.
  - apply elem_of_union_l. by apply elem_of_singleton.
Qed.

End join_facts.

Section join_claims.
Import query.


End join_claims.


(** Scenario 6: the depth-3 side is extended twice, and each of the eight
    bucket pairs is probed once. *)
Example Join_scenario6 :
  ∃ lt st,
    query.Join 2 query_examples.depth3 query_examples.depth5 =
      Some (lt, query_examples.depth5, (Ok tt, st)) ∧
    lt = query.ExtendTable (query.ExtendTable query_examples.depth3) ∧
    query.started st =
      [(1, 11); (2, 12); (3, 13); (4, 14); (1, 15); (2, 16); (3, 17); (4, 18)].
Proof. eexists _, _. repeat split; vm_compute; reflexivity. Qed.

(** * Further properties *)

(** ** The transaction manager: Begin, Lock, Unlock, Commit *)

Section transaction_more.
Import concurrency.
Context {LM : Type} `{!LockManagerOps LM}.
Implicit Types (tm : TransactionManager LM) (id : N) (t : Transaction) (deps : list N).

Lemma tm_eta tm : mkTM (lm tm) (pGraph tm) (transactions tm) = tm.
Proof. by destruct tm. Qed.

Lemma transaction_eta t : mkTransaction (clientId t) (resources t) = t.
Proof. by destruct t. Qed.

(** More edges keep a cycle. *)
Lemma tc_edge_mono (g g' : Graph) a b : g ⊆ g' → tc (edge g) a b → tc (edge g') a b.
Proof.
  intros Hsub. induction 1 as [a b Hab | a b c Hab _ IH].
  - apply tc_once. unfold edge in *. set_solver.
  - eapply tc_l; [| exact IH]. unfold edge in *. set_solver.
Qed.

Lemma cyclic_mono (g g' : Graph) : g ⊆ g' → cyclic g → cyclic g'.
Proof. intros Hsub (x & Htc). exists x. by eapply tc_edge_mono. Qed.

(** The state that [Lock] leaves, by the way it ends, for a transaction that
    does not hold the resource yet. *)
Lemma Lock_new_eq tm id t table key lType :
  let r := mkResource table key in
  let deps := discoverTransactions tm r lType in
  transactions tm !! id = Some t →
  resources t !! r = None →
  DetectCycle (addEdges id deps (pGraph tm)) = false →
  Lock id table key lType tm =
    let ts := alter (λ t, mkTransaction (clientId t) (<[r := lType]> (resources t)))
                    id (transactions tm) in
    let '(granted, l') := lm_Lock r lType (lm tm) in
    if granted
    then (Ok tt, mkTM l' (removeEdges id deps (addEdges id deps (pGraph tm))) ts)
    else (Blocked, mkTM l' (addEdges id deps (pGraph tm)) ts).
Proof.
  intros r deps Ht Hr Hc. unfold Lock, GetTransaction. rewrite Ht. fold r. rewrite Hr.
  fold deps. simpl. rewrite Hc. simpl.
  by destruct (lm_Lock r lType (lm tm)) as [[] l'].
Qed.

(** X1. A transaction that begins and commits at once leaves the transaction
    manager exactly as it was; a second Begin before the Commit is refused
    and changes nothing. *)
Theorem Begin_Commit_round_trip tm id :
  transactions tm !! id = None →
  (Begin id ;;; Commit id) tm = (Ok tt, tm) ∧
  (Begin id ;;; Begin id) tm = (Err "transaction already began", (Begin id tm).2).
Proof.
  intros Hid. unfold bind, Begin, Commit. rewrite Hid. simpl.
  rewrite !lookup_insert_eq. simpl. rewrite map_to_list_empty. simpl. split; [| done].
  unfold set_transactions, set_lm. simpl.
  rewrite delete_insert_eq, delete_id by done. by rewrite tm_eta.
Qed.

(** X2. Lock on a resource the transaction does not hold, when no cycle
    arises and the lock manager grants at once: the call succeeds, the
    requester's map gains the resource in the requested mode, the waits-for
    graph loses the edges of this call again, the lock manager is in the
    state its own Lock left, and the same request once more succeeds without
    any change. *)
Theorem Lock_granted tm id t table key lType l' :
  transactions tm !! id = Some t →
  resources t !! mkResource table key = None →
  ¬ cyclic (addEdges id (discoverTransactions tm (mkResource table key) lType) (pGraph tm)) →
  lm_Lock (mkResource table key) lType (lm tm) = (true, l') →
  ∃ tm',
    Lock id table key lType tm = (Ok tt, tm') ∧
    transactions tm' !! id =
      Some (mkTransaction (clientId t) (<[mkResource table key := lType]> (resources t))) ∧
    pGraph tm' =
      pGraph tm ∖ edgesFrom id (discoverTransactions tm (mkResource table key) lType) ∧
    lm tm' = l' ∧
    Lock id table key lType tm' = (Ok tt, tm').
Proof.
  intros Ht Hr Hc Hlm.
  assert (DetectCycle (addEdges id (discoverTransactions tm (mkResource table key) lType)
                                (pGraph tm)) = false) as Hd.
  { destruct (DetectCycle _) eqn:Hd; [| done]. by apply DetectCycle_cyclic in Hd. }
  rewrite (Lock_new_eq _ _ _ _ _ _ Ht Hr Hd). simpl. rewrite Hlm.
  eexists. split; [reflexivity |]. simpl.
  assert (alter (λ t0, mkTransaction (clientId t0)
                         (<[mkResource table key := lType]> (resources t0)))
                id (transactions tm) !! id =
          Some (mkTransaction (clientId t) (<[mkResource table key := lType]> (resources t))))
    as Hnew by (by rewrite lookup_alter_eq, Ht).
  split; [exact Hnew |]. split.
  - rewrite removeEdges_difference, addEdges_union. set_solver.
  - split; [done |].
    erewrite Lock_held_eq; [| exact Hnew | simpl; apply lookup_insert_eq].
    by destruct lType.
Qed.

(** X3. Whatever way Lock ends, the live transactions are the same as
    before, every other transaction has the resource map it had, and the
    requester's map differs at most at the requested resource. *)
Theorem Lock_frame tm id table key lType :
  let tm' := (Lock id table key lType tm).2 in
  dom (transactions tm') = dom (transactions tm) ∧
  (∀ j, j ≠ id → transactions tm' !! j = transactions tm !! j) ∧
  (∀ t t' r, transactions tm !! id = Some t → transactions tm' !! id = Some t' →
             r ≠ mkResource table key → resources t' !! r = resources t !! r).
Proof.
  unfold Lock, GetTransaction.
  destruct (transactions tm !! id) as [t |] eqn:Ht; [| simpl; repeat split; congruence].
  destruct (resources t !! mkResource table key) as [held |] eqn:Hr.
  { destruct (_ && _); simpl; repeat split; congruence. }
  simpl.
  destruct (DetectCycle _).
  { simpl. repeat split; congruence. }
  destruct (lm_Lock _ _ _) as [granted l'].
  assert (∀ g : Graph,
    let tm1 := mkTM l' g (alter (λ t0, mkTransaction (clientId t0)
                 (<[mkResource table key := lType]> (resources t0))) id (transactions tm)) in
    dom (transactions tm1) = dom (transactions tm) ∧
    (∀ j, j ≠ id → transactions tm1 !! j = transactions tm !! j) ∧
    (∀ t0 t' r, Some t = Some t0 → transactions tm1 !! id = Some t' →
                r ≠ mkResource table key → resources t' !! r = resources t0 !! r)) as Hfr.
  { intros g. simpl. split; [| split].
    - apply set_eq. intros j. rewrite !elem_of_dom.
      destruct (decide (j = id)) as [-> | Hne].
      + rewrite lookup_alter_eq, Ht. simpl. split; eauto.
      + by rewrite lookup_alter_ne.
    - intros j Hne. by rewrite lookup_alter_ne.
    - intros t0 t' r [= <-]. rewrite lookup_alter_eq, Ht. simpl. intros [= <-] Hne.
      simpl. by rewrite lookup_insert_ne. }
  destruct granted; apply Hfr.
Qed.

(** X4. Lock followed by Unlock in the same mode gives every transaction,
    the requester too, the resource map it had before the Lock, whatever the
    lock manager answers to the Unlock; the lock manager has seen one Lock
    and one Unlock of the resource. *)
Theorem Lock_Unlock_round_trip tm id t table key lType l' :
  transactions tm !! id = Some t →
  resources t !! mkResource table key = None →
  ¬ cyclic (addEdges id (discoverTransactions tm (mkResource table key) lType) (pGraph tm)) →
  lm_Lock (mkResource table key) lType (lm tm) = (true, l') →
  ∃ tm' res tm'',
    Lock id table key lType tm = (Ok tt, tm') ∧
    Unlock id table key lType tm' = (res, tm'') ∧
    transactions tm'' = transactions tm ∧
    lm tm'' = (lm_Unlock (mkResource table key) lType l').2 ∧
    res = match (lm_Unlock (mkResource table key) lType l').1 with
          | Some e => Err e
          | None => Ok tt
          end.
Proof.
  intros Ht Hr Hc Hlm.
  assert (DetectCycle (addEdges id (discoverTransactions tm (mkResource table key) lType)
                                (pGraph tm)) = false) as Hd.
  { destruct (DetectCycle _) eqn:Hd; [| done]. by apply DetectCycle_cyclic in Hd. }
  rewrite (Lock_new_eq _ _ _ _ _ _ Ht Hr Hd). simpl. rewrite Hlm.
  destruct (lm_Unlock (mkResource table key) lType l') as [err l''] eqn:HU.
  eexists _, _, _. split; [reflexivity |].
  unfold Unlock, GetTransaction. simpl. rewrite lookup_alter_eq, Ht. simpl.
  rewrite lookup_insert_eq, bool_decide_eq_false_2 by (by intros ?).
  unfold delete_resource, set_transactions, set_lm. simpl. rewrite HU. simpl.
  split; [reflexivity |]. simpl. split; [| done].
  apply map_eq. intros j. destruct (decide (j = id)) as [-> | Hne].
  - rewrite !lookup_alter_eq, Ht. simpl. f_equal.
    rewrite delete_insert_eq, delete_id by done. apply transaction_eta.
  - by rewrite !lookup_alter_ne.
Qed.

(** X5. Lock keeps the waits-for graph free of cycles, whatever way it
    ends: also while the caller waits in the lock manager with its edges in
    the graph. *)
Theorem Lock_keeps_graph_acyclic tm id table key lType res tm' :
  ¬ cyclic (pGraph tm) →
  Lock id table key lType tm = (res, tm') →
  ¬ cyclic (pGraph tm').
Proof.
  intros Hac. unfold Lock, GetTransaction.
  destruct (transactions tm !! id) as [t |]; [| by intros [= _ <-]].
  destruct (resources t !! mkResource table key) as [held |].
  { by destruct (_ && _); intros [= _ <-]. }
  simpl.
  set (deps := discoverTransactions tm (mkResource table key) lType).
  assert (¬ cyclic (removeEdges id deps (addEdges id deps (pGraph tm)))) as Hrm.
  { intros Hc. apply Hac. eapply cyclic_mono; [| exact Hc].
    rewrite removeEdges_difference, addEdges_union. set_solver. }
  destruct (DetectCycle (addEdges id deps (pGraph tm))) eqn:Hd.
  { by intros [= _ <-]. }
  destruct (lm_Lock _ _ _) as [[] l']; intros [= _ <-]; simpl; [done |].
  intros Hc. apply DetectCycle_cyclic in Hc. congruence.
Qed.

(** X6. discoverTransactions returns, each once, exactly the transactions
    that hold the resource in a mode that conflicts with the request: any
    holder for an exclusive request, the exclusive holders for a shared
    one. *)
Theorem discoverTransactions_exact tm r lType :
  NoDup (discoverTransactions tm r lType) ∧
  (∀ u, u ∈ discoverTransactions tm r lType ↔
        ∃ t stored, transactions tm !! u = Some t ∧ resources t !! r = Some stored ∧
                    (stored = W_LOCK ∨ lType = W_LOCK)).
Proof.
  split.
  - unfold discoverTransactions. apply NoDup_fst_map_to_list.
  - intros u. rewrite elem_of_discoverTransactions. split.
    + intros (t & Hu & Hc). apply conflicts_holds in Hc as (stored & ? & ?). eauto.
    + intros (t & stored & Hu & Hs & Hc). exists t. split; [done |].
      apply conflicts_holds. eauto.
Qed.


End transaction_more.

(** X1 at the new transaction manager and transaction 1. *)
Lemma Begin_Commit_round_trip_witness :
  (concurrency.Begin 1%N ;;; concurrency.Commit 1%N) examples.tm0 = (Ok tt, examples.tm0).
Proof.
  apply (Begin_Commit_round_trip examples.tm0 1%N). vm_compute; reflexivity.
Defined.

(** X2 at transaction 1, alone, asking for ("t", 5) in shared mode. *)
Lemma Lock_granted_witness :
  ∃ tm',
    concurrency.Lock 1%N "t" 5 concurrency.R_LOCK more_examples.tm_began = (Ok tt, tm') ∧
    concurrency.Lock 1%N "t" 5 concurrency.R_LOCK tm' = (Ok tt, tm').
Proof.
  destruct (Lock_granted more_examples.tm_began 1%N (concurrency.mkTransaction 1 ∅) "t" 5
              concurrency.R_LOCK
              (concurrency.lm_Lock (concurrency.mkResource "t" 5) concurrency.R_LOCK
                 (concurrency.lm more_examples.tm_began)).2)
    as (tm' & HL & _ & _ & _ & HL').
  - vm_compute; reflexivity.
  - vm_compute; reflexivity.
  - intros Hc. apply DetectCycle_cyclic in Hc. vm_compute in Hc. discriminate.
  - vm_compute; reflexivity.
  - by exists tm'.
Defined.

(** X4 at the same request. *)
Lemma Lock_Unlock_round_trip_witness :
  ∃ tm' res tm'',
    concurrency.Lock 1%N "t" 5 concurrency.R_LOCK more_examples.tm_began = (Ok tt, tm') ∧
    concurrency.Unlock 1%N "t" 5 concurrency.R_LOCK tm' = (res, tm'') ∧
    concurrency.transactions tm'' = concurrency.transactions more_examples.tm_began.
Proof.
  destruct (Lock_Unlock_round_trip more_examples.tm_began 1%N (concurrency.mkTransaction 1 ∅) "t" 5
              concurrency.R_LOCK
              (concurrency.lm_Lock (concurrency.mkResource "t" 5) concurrency.R_LOCK
                 (concurrency.lm more_examples.tm_began)).2)
    as (tm' & res & tm'' & HL & HU & Hts & _).
  - vm_compute; reflexivity.
  - vm_compute; reflexivity.
  - intros Hc. apply DetectCycle_cyclic in Hc. vm_compute in Hc. discriminate.
  - vm_compute; reflexivity.
  - by exists tm', res, tm''.
Defined.

(** X5 at scenario 3: B's request, refused for the deadlock, leaves the graph
    with the one edge from A to B. *)
Lemma Lock_keeps_graph_acyclic_witness :
  concurrency.DetectCycle
    (concurrency.pGraph
       (concurrency.Lock 2%N "t" 5 concurrency.W_LOCK examples.tm_two_writers).2) = false.
Proof.
  destruct (concurrency.DetectCycle _) eqn:Hd; [| reflexivity].
  apply DetectCycle_cyclic in Hd. exfalso. revert Hd.
  eapply (Lock_keeps_graph_acyclic examples.tm_two_writers 2%N "t" 5 concurrency.W_LOCK).
  - intros Hc. apply DetectCycle_cyclic in Hc. vm_compute in Hc. discriminate.
  - apply surjective_pairing.
Defined.

(** ** The bloom filter: which keys a filter answers for *)

Section bloom_more.
Import query bloom_positions.
Variables XxHasher MurmurHasher : Z → Z → Z.

Local Abbreviation inserted := (bloom_positions.inserted XxHasher MurmurHasher).
Local Abbreviation positions := (bloom_positions.positions XxHasher MurmurHasher).

Lemma bitset_Set_comm b i j : bitset_Set (bitset_Set b i) j = bitset_Set (bitset_Set b j) i.
Proof.
  unfold bitset_Set. simpl. f_equal; [lia |].
  by rewrite <- !N.lor_assoc, (N.lor_comm (N.shiftl 1 i)).
Qed.

Lemma bitset_Set_idem b i : bitset_Set (bitset_Set b i) i = bitset_Set b i.
Proof.
  unfold bitset_Set. simpl. f_equal; [lia |].
  by rewrite <- N.lor_assoc, N.lor_diag.
Qed.

Lemma bitset_Test_testbit b i :
  bits_in_length b → bitset_Test b i = N.testbit (set b) i.
Proof.
  intros Hb. unfold bitset_Test. destruct (N.testbit (set b) i) eqn:Hi.
  - by rewrite bool_decide_eq_true_2 by auto.
  - apply andb_false_r.
Qed.

Lemma testbit_Set b i j :
  N.testbit (set (bitset_Set b i)) j = bool_decide (j = i) || N.testbit (set b) j.
Proof.
  unfold bitset_Set. simpl. rewrite N.lor_spec, N.shiftl_1_l, orb_comm. f_equal.
  case_bool_decide as Hj.
  - subst. apply N.pow2_bits_true.
  - apply N.pow2_bits_false. congruence.
Qed.

Lemma bitset_Set_in_length b i : bits_in_length b → bits_in_length (bitset_Set b i).
Proof.
  intros Hb j. rewrite testbit_Set. unfold bitset_Set at 1. simpl.
  intros [Hj | Hj]%orb_true_iff.
  - apply bool_decide_eq_true in Hj as ->. lia.
  - apply Hb in Hj. lia.
Qed.

Lemma run_ops_app os1 os2 filter :
  run_ops XxHasher MurmurHasher (os1 ++ os2) filter =
  run_ops XxHasher MurmurHasher os2 (run_ops XxHasher MurmurHasher os1 filter).
Proof. unfold run_ops. apply foldl_app. Qed.

Lemma run_ops_size os filter : size (run_ops XxHasher MurmurHasher os filter) = size filter.
Proof.
  revert filter. induction os as [| o os IH]; intros filter; [done |].
  change (run_ops XxHasher MurmurHasher (o :: os) filter)
    with (run_ops XxHasher MurmurHasher os (run_op XxHasher MurmurHasher o filter)).
  by rewrite IH, run_op_size.
Qed.

Lemma inserted_bits sz keys :
  bits_in_length (bits (inserted sz keys)) ∧
  ∀ i, N.testbit (set (bits (inserted sz keys))) i = true ↔ i ∈ positions sz keys.
Proof.
  unfold bloom_positions.inserted.
  induction keys as [| k keys IH] using rev_ind.
  - split; intros i; cbn; [done |].
    split; [done | by intros ?%elem_of_nil].
  - destruct IH as [Hlen Hbits].
    rewrite fmap_app, run_ops_app.
    set (f := run_ops XxHasher MurmurHasher (op_Insert <$> keys) (CreateFilter sz)) in *.
    assert (Hsz : size f = sz) by (unfold f; by rewrite run_ops_size).
    change (bits (run_ops XxHasher MurmurHasher (op_Insert <$> [k]) f))
      with (bitset_Set (bitset_Set (bits f) (uint (XxHasher k (size f))))
              (uint (MurmurHasher k (size f)))).
    rewrite Hsz. split.
    + by do 2 apply bitset_Set_in_length.
    + intros i. rewrite !testbit_Set, !orb_true_iff, !bool_decide_eq_true, Hbits.
      unfold bloom_positions.positions. rewrite bind_app, elem_of_app. simpl.
      rewrite !elem_of_cons, elem_of_nil. naive_solver.
Qed.

(** X8. A filter made by CreateFilter and any inserts answers true for a key
    exactly when both bit positions of the key are positions that an
    inserted key set: a new filter answers false for every key, and a false
    positive needs both positions of the key to collide with positions of
    inserted keys. *)
Theorem Contains_exact (size : Z) (keys : list Z) (key : Z) :
  (Contains XxHasher MurmurHasher key (inserted size keys)).1 = Ok true ↔
  uint (XxHasher key size) ∈ positions size keys ∧
  uint (MurmurHasher key size) ∈ positions size keys.
Proof.
  destruct (inserted_bits size keys) as [Hlen Hbits].
  unfold bloom_positions.inserted in *. unfold Contains. simpl. rewrite run_ops_size. simpl.
  rewrite !bitset_Test_testbit by done. rewrite <- !Hbits.
  split.
  - intros [= Hb]. by apply andb_true_iff in Hb.
  - intros [-> ->]. done.
Qed.

(** X9. Inserting a key twice is the same as inserting it once, and two
    inserts give the same filter in either order. *)
Theorem Insert_idempotent_commutative (filter : BloomFilter) (a b : Z) :
  (Insert XxHasher MurmurHasher a (Insert XxHasher MurmurHasher a filter).2).2 =
    (Insert XxHasher MurmurHasher a filter).2 ∧
  (Insert XxHasher MurmurHasher b (Insert XxHasher MurmurHasher a filter).2).2 =
    (Insert XxHasher MurmurHasher a (Insert XxHasher MurmurHasher b filter).2).2.
Proof.
  unfold Insert. simpl. split; f_equal.
  - set (i := uint (XxHasher a (size filter))).
    set (j := uint (MurmurHasher a (size filter))).
    rewrite (bitset_Set_comm (bitset_Set (bits filter) i) j i), bitset_Set_idem.
    by rewrite bitset_Set_idem.
  - set (i := uint (XxHasher a (size filter))).
    set (j := uint (MurmurHasher a (size filter))).
    set (i' := uint (XxHasher b (size filter))).
    set (j' := uint (MurmurHasher b (size filter))).
    rewrite (bitset_Set_comm (bitset_Set (bits filter) i) j i').
    rewrite (bitset_Set_comm (bits filter) i i').
    rewrite (bitset_Set_comm (bitset_Set (bitset_Set (bits filter) i') i) j j').
    rewrite (bitset_Set_comm (bitset_Set (bits filter) i') i j').
    done.
Qed.

End bloom_more.

(** ** Join: what one probe sends *)

Section probe_more.
Import query.


End probe_more.

(** ** The recovery manager: the log file and the passes of Recover *)

Section recovery_more.
Import concurrency recovery recovery_log.
Context {LM : Type} `{!LockManagerOps LM}.
Implicit Types (rm : RecoveryManager LM) (logs : list Log) (activeTxs : gset N).

(** *** The log file only grows *)

Lemma appends_ret {A : Type} (a : A) : appends (LM := LM) (ret a).
Proof. by intros rm. Qed.

Lemma appends_fail {A : Type} e : appends (LM := LM) (A := A) (fail e).
Proof. by intros rm. Qed.

Lemma appends_get : appends (LM := LM) get.
Proof. by intros rm. Qed.

Lemma appends_bind {A B : Type} (m : M (RecoveryManager LM) A) (k : A → M (RecoveryManager LM) B) :
  appends m → (∀ a, appends (k a)) → appends (bind m k).
Proof.
  intros Hm Hk rm. specialize (Hm rm). unfold bind.
  destruct (m rm) as [[a | e | | e] rm1]; simpl in *; try done.
  etrans; [exact Hm | apply Hk].
Qed.

Lemma appends_ignore_err {A : Type} (m : M (RecoveryManager LM) A) :
  appends m → appends (ignore_err m).
Proof.
  intros Hm rm. specialize (Hm rm). unfold ignore_err.
  by destruct (m rm) as [[a | e | | e] rm1].
Qed.

Lemma appends_or_else (first second : M (RecoveryManager LM) unit) :
  appends first → appends second → appends (or_else first second).
Proof.
  intros H1 H2 rm. specialize (H1 rm). unfold or_else.
  destruct (first rm) as [[a | e | | e] rm1]; simpl in *; try done.
  etrans; [exact H1 | apply H2].
Qed.

Lemma appends_liftDb {A : Type} (m : M db.Database A) : appends (LM := LM) (liftDb m).
Proof. intros rm. unfold liftDb. by destruct (m (d rm)). Qed.

Lemma appends_liftTm {A : Type} (m : M (TransactionManager LM) A) : appends (liftTm m).
Proof. intros rm. unfold liftTm. by destruct (m (tm rm)). Qed.

Lemma appends_writeToBuffer l : appends (LM := LM) (writeToBuffer l).
Proof. intros rm. simpl. by apply prefix_app_r. Qed.

Lemma appends_set_txStack f : appends (LM := LM) (set_txStack f).
Proof. by intros rm. Qed.

Lemma appends_Delta : appends (LM := LM) Delta.
Proof. by intros rm. Qed.

Lemma appends_findOld name key : appends (LM := LM) (findOld name key).
Proof. intros rm. unfold findOld. by destruct (db.Find (d rm) name key). Qed.

Lemma appends_panic_index {A : Type} : appends (LM := LM) (A := A) panic_index.
Proof. by intros rm. Qed.

Create HintDb appends.
#[local] Hint Resolve appends_ret appends_fail appends_get appends_ignore_err
  appends_or_else appends_liftDb appends_liftTm appends_writeToBuffer
  appends_set_txStack appends_Delta appends_findOld appends_panic_index : appends.
#[local] Hint Extern 1 (appends (bind _ _)) => apply appends_bind; [| intros ?] : appends.

Lemma appends_Edit id table action key oldval newval :
  appends (LM := LM) (Edit id table action key oldval newval).
Proof. unfold Edit. auto with appends. Qed.

Lemma appends_Commit id : appends (LM := LM) (Commit id).
Proof. unfold Commit. auto with appends. Qed.

Lemma appends_Redo log : appends (LM := LM) (Redo log).
Proof. destruct log as [| ? ? [] | | |]; simpl; auto with appends. Qed.

Lemma appends_Undo log : appends (LM := LM) (Undo log).
Proof.
  pose proof appends_Edit.
  destruct log as [[| ? ? [] | | |] |]; simpl; auto 10 with appends.
Qed.

Lemma appends_seedActive ids activeTxs : appends (LM := LM) (seedActive ids activeTxs).
Proof. revert activeTxs. induction ids; intros activeTxs; simpl; auto with appends. Qed.

Lemma appends_redoLoop n i logs activeTxs : appends (LM := LM) (redoLoop n i logs activeTxs).
Proof.
  pose proof appends_Redo. pose proof appends_Commit.
  revert i activeTxs. induction n as [| n IH]; intros i activeTxs; simpl;
    [auto with appends |].
  destruct (logs !! i) as [[] |]; auto 10 with appends.
Qed.

Lemma appends_undoLoop n logs activeTxs : appends (LM := LM) (undoLoop n logs activeTxs).
Proof.
  pose proof appends_Undo. pose proof appends_Commit.
  induction n as [| n IH]; simpl; [auto with appends |].
  destruct (logs !! n) as [log |]; [| auto with appends].
  apply appends_bind; [| done].
  unfold undoStep. destruct log; try case_bool_decide; auto 10 with appends.
Qed.

Lemma appends_rollbackLoop n (stack : list (option Log)) :
  appends (LM := LM) (rollbackLoop n stack).
Proof.
  pose proof appends_Undo.
  induction n as [| n IH]; simpl; [auto with appends |].
  case_bool_decide; [| auto with appends].
  destruct (stack !! n) as [log |]; [| auto with appends].
  apply appends_bind; [| done]. destruct (isEditLog log); auto with appends.
Qed.


End recovery_more.

Section recovery_passes.
Import concurrency recovery recovery_log.
Context {LM : Type} `{!LockManagerOps LM}.
Implicit Types (rm : RecoveryManager LM) (logs : list Log) (activeTxs : gset N).

(** *** Which calls return, and which can wait *)

Lemma returns_no_panic {S A : Type} (m : M S A) : returns m → no_panic m.
Proof. intros Hm s. specialize (Hm s). by destruct (m s).1. Qed.

Lemma returns_bind {S A B : Type} (m : M S A) (k : A → M S B) :
  returns m → (∀ a, returns (k a)) → returns (bind m k).
Proof.
  intros Hm Hk s. specialize (Hm s). unfold bind.
  destruct (m s) as [[a | e | | e] s1]; simpl in *; try done. apply Hk.
Qed.

Lemma no_panic_bind {S A B : Type} (m : M S A) (k : A → M S B) :
  no_panic m → (∀ a, no_panic (k a)) → no_panic (bind m k).
Proof.
  intros Hm Hk s. specialize (Hm s). unfold bind.
  destruct (m s) as [[a | e | | e] s1]; simpl in *; try done. apply Hk.
Qed.

Lemma nil_or_waits_bind {S A B : Type} (m : M S A) (k : A → M S B) :
  nil_or_waits m → (∀ a, nil_or_waits (k a)) → nil_or_waits (bind m k).
Proof.
  intros Hm Hk s. specialize (Hm s). unfold bind.
  destruct (m s) as [[a | e | | e] s1]; simpl in *; try done. apply Hk.
Qed.

Lemma nil_or_waits_ignore_err {S A : Type} (m : M S A) :
  no_panic m → nil_or_waits (ignore_err m).
Proof.
  intros Hm s. specialize (Hm s). unfold ignore_err.
  by destruct (m s) as [[a | e | | e] s1].
Qed.

Lemma returns_liftDb {A : Type} (m : M db.Database A) :
  returns m → returns (S := RecoveryManager LM) (liftDb m).
Proof.
  intros Hm rm. specialize (Hm (d rm)). unfold liftDb. by destruct (m (d rm)).
Qed.

Lemma returns_liftTm {A : Type} (m : M (TransactionManager LM) A) :
  returns m → returns (liftTm m).
Proof.
  intros Hm rm. specialize (Hm (tm rm)). unfold liftTm. by destruct (m (tm rm)).
Qed.

Lemma no_panic_liftTm {A : Type} (m : M (TransactionManager LM) A) :
  no_panic m → no_panic (liftTm m).
Proof.
  intros Hm rm. specialize (Hm (tm rm)). unfold liftTm. by destruct (m (tm rm)).
Qed.

Lemma returns_db_GetTable name : returns (db.GetTable name).
Proof. intros dd. unfold db.GetTable. by destruct (dd !! name). Qed.

Lemma returns_db_handlers p :
  returns (db.HandleCreateTable p) ∧ returns (db.HandleInsert p) ∧
  returns (db.HandleUpdate p) ∧ returns (db.HandleDelete p).
Proof.
  repeat split; intros dd; destruct p; simpl; try done;
    unfold bind, db.GetTable, db.set_rows, modify, fail;
    repeat (case_match; simpl in *; simplify_eq; try done).
Qed.

Lemma returns_Begin id : returns (Begin (LM := LM) id).
Proof. intros t. unfold Begin. by destruct (transactions t !! id). Qed.

Lemma returns_tm_Commit id : returns (concurrency.Commit (LM := LM) id).
Proof.
  intros t. unfold concurrency.Commit. destruct (transactions t !! id); [| done].
  by destruct (unlockAll _ _) as [[e |] l'].
Qed.

Lemma no_panic_Lock id table key lType : no_panic (Lock (LM := LM) id table key lType).
Proof.
  intros t. unfold Lock. repeat (case_match; simpl in *; try done).
Qed.

Lemma returns_or_else {S : Type} (first second : M S unit) :
  returns first → returns second → returns (or_else first second).
Proof.
  intros H1 H2 s. specialize (H1 s). unfold or_else.
  destruct (first s) as [[a | e | | e] s1]; simpl in *; try done. apply H2.
Qed.

Lemma returns_Redo log : returns (S := RecoveryManager LM) (Redo log).
Proof.
  destruct log as [ty name | ? name [] key ? new | | |]; unfold Redo; try done.
  - apply returns_liftDb, returns_db_handlers.
  - apply returns_or_else; apply returns_liftDb, returns_db_handlers.
  - apply returns_or_else; apply returns_liftDb, returns_db_handlers.
  - apply returns_liftDb, returns_db_handlers.
Qed.

Lemma ignore_err_returns {S A : Type} (m : M S A) s :
  returns m → ∃ s', ignore_err m s = (Ok tt, s').
Proof.
  intros Hm. specialize (Hm s). unfold ignore_err.
  destruct (m s) as [[a | e | | e] s1]; simpl in *; try done; eauto.
Qed.

Lemma no_panic_liftDb {A : Type} (m : M db.Database A) :
  returns m → no_panic (S := RecoveryManager LM) (liftDb m).
Proof. intros. by apply returns_no_panic, returns_liftDb. Qed.

Lemma no_panic_Edit id table action key oldval newval :
  no_panic (S := RecoveryManager LM) (Edit id table action key oldval newval).
Proof. by intros rm. Qed.

Lemma no_panic_findOld name key : no_panic (S := RecoveryManager LM) (findOld name key).
Proof. intros rm. unfold findOld. by destruct (db.Find (d rm) name key). Qed.

Lemma no_panic_Undo log : no_panic (S := RecoveryManager LM) (Undo log).
Proof.
  pose proof returns_db_GetTable as HG.
  pose proof (λ p, proj1 (proj2 (returns_db_handlers p))) as HI.
  pose proof (λ p, proj1 (proj2 (proj2 (returns_db_handlers p)))) as HU.
  pose proof (λ p, proj2 (proj2 (proj2 (returns_db_handlers p)))) as HD.
  destruct log as [[| id name [] key old new | | |] |]; try done; unfold Undo.
  - unfold HandleDelete.
    apply no_panic_bind; [by apply no_panic_liftDb | intros _].
    apply no_panic_bind; [apply no_panic_liftTm, no_panic_Lock | intros _].
    apply no_panic_bind; [apply no_panic_findOld | intros ?].
    apply no_panic_bind; [apply no_panic_Edit | intros _].
    by apply no_panic_liftDb.
  - unfold HandleUpdate.
    apply no_panic_bind; [by apply no_panic_liftDb | intros _].
    apply no_panic_bind; [apply no_panic_liftTm, no_panic_Lock | intros _].
    apply no_panic_bind; [apply no_panic_findOld | intros ?].
    apply no_panic_bind; [apply no_panic_Edit | intros _].
    by apply no_panic_liftDb.
  - unfold HandleInsert.
    apply no_panic_bind; [by apply no_panic_liftDb | intros _].
    apply no_panic_bind; [apply no_panic_liftTm, no_panic_Lock | intros _].
    apply no_panic_bind; [apply no_panic_Edit | intros _].
    by apply no_panic_liftDb.
Qed.

(** *** The redo pass *)

Lemma seedActive_Ok ids activeTxs rm :
  ∃ rm', seedActive ids activeTxs rm = (Ok (list_to_set ids ∪ activeTxs), rm').
Proof.
  revert activeTxs rm. induction ids as [| id ids IH]; intros activeTxs rm; simpl.
  - exists rm. unfold ret. do 2 f_equal. set_solver.
  - unfold bind at 1.
    destruct (ignore_err_returns (liftTm (Begin id)) rm) as [rm1 ->];
      [apply returns_liftTm, returns_Begin |].
    destruct (IH ({[id]} ∪ activeTxs) rm1) as [rm' ->]. exists rm'.
    do 2 f_equal. set_solver.
Qed.

Lemma redoLoop_Ok n i logs activeTxs rm :
  (i + n ≤ List.length logs)%nat →
  ∃ rm', redoLoop n i logs activeTxs rm =
           (Ok (activeAfter (take n (drop i logs)) activeTxs), rm').
Proof.
  revert i activeTxs rm. induction n as [| n IH]; intros i activeTxs rm Hlen.
  - exists rm. by rewrite take_0.
  - destruct (lookup_lt_is_Some_2 logs i ltac:(lia)) as [log Hlog].
    rewrite (drop_S _ _ _ Hlog). simpl. rewrite Hlog.
    destruct log as [ty name | eid name act key old new | id | id | ids].
    + unfold bind at 1.
      destruct (ignore_err_returns (Redo (tableLog ty name)) rm) as [rm1 ->];
        [apply returns_Redo |].
      apply IH. lia.
    + unfold bind at 1.
      destruct (ignore_err_returns (Redo (editLog eid name act key old new)) rm)
        as [rm1 ->]; [apply returns_Redo |].
      apply IH. lia.
    + unfold bind at 1.
      destruct (ignore_err_returns (liftTm (Begin id)) rm) as [rm1 ->];
        [apply returns_liftTm, returns_Begin |].
      apply IH. lia.
    + unfold bind at 1. unfold Commit at 1. unfold bind at 1. simpl.
      unfold bind at 1.
      match goal with
      | |- context [ignore_err ?m ?s] =>
          destruct (ignore_err_returns m s) as [rm1 ->];
            [apply returns_liftTm, returns_tm_Commit |]
      end.
      apply IH. lia.
    + apply IH. lia.
Qed.

(** X12. The redo pass of Recover reads every record from the checkpoint to
    the end of the log and returns: no error of Redo, Begin or Commit stops
    it and it never waits for a lock. The transactions it hands to the undo
    pass are those of the checkpoint record, plus those with a start record
    after the checkpoint, minus those with a later commit record. *)
Theorem redo_pass_active_set (ids : list N) (n i : nat) logs rm :
  (i + n ≤ List.length logs)%nat →
  ∃ rm1 rm2,
    seedActive ids ∅ rm = (Ok (list_to_set ids), rm1) ∧
    redoLoop n i logs (list_to_set ids) rm1 =
      (Ok (activeAfter (take n (drop i logs)) (list_to_set ids)), rm2) ∧
    fd rm `prefix_of` fd rm2.
Proof.
  intros Hlen.
  destruct (seedActive_Ok ids ∅ rm) as [rm1 H1].
  destruct (redoLoop_Ok n i logs (list_to_set ids) rm1 Hlen) as [rm2 H2].
  exists rm1, rm2. split; [| split; [done |]].
  - rewrite H1. do 2 f_equal. set_solver.
  - etrans.
    + pose proof (appends_seedActive ids ∅ rm) as Ha. rewrite H1 in Ha. exact Ha.
    + pose proof (appends_redoLoop n i logs (list_to_set ids) rm1) as Ha.
      rewrite H2 in Ha. exact Ha.
Qed.

(** *** The undo pass *)

Lemma undoLoop_no_active n logs rm :
  (n ≤ List.length logs)%nat → undoLoop n logs ∅ rm = (Ok tt, rm).
Proof.
  induction n as [| n IH]; intros Hlen; [done |]. simpl.
  destruct (lookup_lt_is_Some_2 logs n ltac:(lia)) as [log ->].
  assert (undoStep ∅ log = ret tt) as -> by (by destruct log).
  rewrite ret_bind. apply IH. lia.
Qed.

Lemma lastCheckpoint_snoc logs ids :
  lastCheckpoint (logs ++ [checkpointLog ids]) = Some (List.length logs).
Proof. induction logs as [| l logs IH]; simpl; [done | by rewrite IH]. Qed.

(** X13. A checkpoint taken while no transaction is in flight survives a
    crash: after Checkpoint, a kill of the process and a restart (Prime, a new
    transaction manager), Recover returns nil, the database holds exactly
    what it held at the checkpoint, no transaction is left, and the log is
    the old log with the checkpoint record at its end. *)
Theorem Checkpoint_restart_Recover (l0 : LM) rm :
  txStack rm = ∅ →
  Recover (restart l0 (Checkpoint rm).2) =
    (Ok tt, mkRM (d rm) (NewTransactionManager l0) ∅
                 (fd rm ++ [checkpointLog []]) (Some (d rm))).
Proof.
  intros Hst. unfold Checkpoint, bind, get, writeToBuffer, Delta, modify. simpl.
  rewrite Hst, map_to_list_empty. simpl.
  unfold restart, Prime, Recover, readLogs, bind. simpl.
  rewrite lastCheckpoint_snoc. simpl.
  unfold replay. rewrite lookup_app_r, Nat.sub_diag by done. simpl.
  rewrite length_app. simpl.
  replace (List.length (fd rm) + 1 - List.length (fd rm))%nat with 1%nat by lia.
  unfold bind, ret. simpl.
  rewrite lookup_app_r, Nat.sub_diag by done. simpl.
  rewrite <- (length_app (fd rm) [checkpointLog []]) at 1.
  replace (List.length (fd rm ++ [checkpointLog []]))
    with (List.length (fd rm ++ [checkpointLog []])) by done.
  apply undoLoop_no_active. rewrite length_app. simpl. lia.
Qed.

(** X14. When the log holds a record at the position that readLogs gives,
    Recover returns nil if it returns: the errors of Redo, Undo, Begin and
    Commit are all dropped, and the only way not to return is to wait for a
    lock while undoing. When the log holds no record there (an empty log
    file), Recover panics on the index before it has changed anything. *)
Theorem replay_outcome logs (checkpointPos : nat) rm :
  if bool_decide (checkpointPos < List.length logs)%nat
  then (replay logs checkpointPos rm).1 = Ok tt ∨
       (replay logs checkpointPos rm).1 = Blocked
  else replay logs checkpointPos rm = (Panic "index out of range", rm).
Proof.
  case_bool_decide as Hpos.
  - destruct (lookup_lt_is_Some_2 logs checkpointPos Hpos) as [l Hl].
    assert (∃ seeded rm1,
      match l with checkpointLog ids => seedActive ids ∅ | _ => ret ∅ end rm
        = (Ok seeded, rm1)) as (seeded & rm1 & Hseed).
    { destruct l; try (by eexists _, _).
      destruct (seedActive_Ok ids ∅ rm) as [rm1 ->]. by eexists _, _. }
    destruct (redoLoop_Ok (List.length logs - checkpointPos) checkpointPos logs
                seeded rm1 ltac:(lia)) as [rm2 Hredo].
    set (seeded' := activeAfter _ _) in Hredo.
    assert (replay logs checkpointPos rm = undoLoop (List.length logs) logs seeded' rm2)
      as ->.
    { unfold replay. rewrite Hl. unfold bind. by rewrite Hseed, Hredo. }
    assert (∀ n activeTxs, (n ≤ List.length logs)%nat →
              nil_or_waits (S := RecoveryManager LM) (undoLoop n logs activeTxs))
      as Hundo.
    { intros n activeTxs. induction n as [| n IH]; intros Hn; [done |]. simpl.
      destruct (lookup_lt_is_Some_2 logs n ltac:(lia)) as [log ->].
      apply nil_or_waits_bind; [| intros _; apply IH; lia]. unfold undoStep.
      destruct log; try done; case_bool_decide; try done.
      - apply nil_or_waits_ignore_err, no_panic_Undo.
      - apply nil_or_waits_bind; [done |]. intros _.
        apply nil_or_waits_ignore_err, returns_no_panic, returns_liftTm,
          returns_tm_Commit. }
    specialize (Hundo (List.length logs) seeded' ltac:(lia) rm2).
    destruct (undoLoop _ _ _ rm2) as [[[] | e | | e] rm3]; simpl in *; by auto.
  - unfold replay. by rewrite lookup_ge_None_2 by lia.
Qed.

End recovery_passes.

Lemma redo_pass_active_set_witness :
  ∃ rm1 rm2,
    recovery.seedActive [7%N] ∅ (recovery.restart ∅ recovery_examples.crashed) =
      (Ok (list_to_set [7%N]), rm1) ∧
    recovery.redoLoop 2 3 (recovery.fd recovery_examples.crashed) (list_to_set [7%N]) rm1 =
      (Ok (recovery_log.activeAfter
             (take 2 (drop 3 (recovery.fd recovery_examples.crashed)))
             (list_to_set [7%N])), rm2) ∧
    recovery.fd (recovery.restart ∅ recovery_examples.crashed) `prefix_of` recovery.fd rm2.
Proof.
  apply (redo_pass_active_set (LM := concurrency.LockTable) [7%N] 2 3
           (recovery.fd recovery_examples.crashed)
           (recovery.restart ∅ recovery_examples.crashed)).
  vm_compute. lia.
Defined.

Lemma Checkpoint_restart_Recover_witness :
  recovery.Recover
    (recovery.restart (∅ : concurrency.LockTable)
       (recovery.Checkpoint recovery_examples.rm_one_row).2) =
  (Ok tt,
   recovery.mkRM (recovery.d recovery_examples.rm_one_row)
     (concurrency.NewTransactionManager ∅) ∅
     (recovery.fd recovery_examples.rm_one_row ++ [recovery.checkpointLog []])
     (Some (recovery.d recovery_examples.rm_one_row))).
Proof.
  apply (Checkpoint_restart_Recover (LM := concurrency.LockTable) ∅
           recovery_examples.rm_one_row).
  reflexivity.
Defined.

(** ** The B+-tree cursor: what StepForward reaches and what a range scan returns *)

Section cursor_more.
Import btree.
Variable table : BTreeIndex.
Implicit Types (c : BTreeCursor) (l : LeafNode) (ls : list LeafNode).

(** More fuel does not change a result. *)
Lemma descend_mono f f' pick pn r :
  descend f pick table pn = Some r → (f ≤ f')%nat → descend f' pick table pn = Some r.
Proof.
  revert pn f'. induction f as [| f IH]; intros pn f' HD Hle;
    destruct f' as [| f']; simpl in *; try lia;
    destruct (GetPage table pn) as [[l | n] |]; try done.
  apply IH; [done | lia].
Qed.

Lemma StepForward_mono f f' c r :
  StepForward f table c = Some r → (f ≤ f')%nat → StepForward f' table c = Some r.
Proof.
  revert c f'. induction f as [| f IH]; intros c f' HS Hle;
    rewrite StepForward_unfold in HS; rewrite StepForward_unfold.
  all: case_bool_decide; [| done].
  all: case_bool_decide; [done |].
  all: destruct (GetLeaf table (rightSiblingPN (curNode c))) as [l' |]; [| done].
  all: case_bool_decide; [| done].
  - done.
  - destruct f' as [| f']; [lia |]. apply IH; [done | lia].
Qed.

Lemma valid_empty l : leaf_wf l → valid l = [] ↔ numKeys l = 0.
Proof.
  intros Hwf. pose proof (valid_length l Hwf) as Hlen. split.
  - intros Hv. rewrite Hv in Hlen. simpl in Hlen. lia.
  - intros Hn. apply length_zero_iff_nil. lia.
Qed.

(** From the last cell of a leaf on: the leaves to the right hold no
    entry. *)
Lemma skip_end ls c fuel :
  chain table (curNode c) ls → Forall leaf_wf ls →
  cellnum c + 1 >= numKeys (curNode c) → (List.length ls ≤ fuel)%nat →
  concat (valid <$> ls) = [] →
  ∃ c', StepForward fuel table c = Some (true, c') ∧
        (c' = c ∨ ∃ l, l ∈ ls ∧ numKeys l = 0 ∧ c' = mkCursor 0 (isEnd c) l).
Proof.
  revert c fuel. induction ls as [| l' ls' IH]; intros c fuel Hch Hwf Hlast Hfuel Hnil.
  - exists c. split; [| by left]. apply StepForward_stuck. split; [done |].
    by inversion Hch.
  - inversion Hch as [| ? ? ? Hpn Hl' Hch']; simplify_eq.
    apply Forall_cons in Hwf as [Hwf' Hwf]. simpl in Hnil.
    apply app_eq_nil in Hnil as [Hv Hnil].
    apply valid_empty in Hv; [| done].
    destruct fuel as [| f]; [simpl in Hfuel; lia |].
    rewrite StepForward_unfold.
    rewrite bool_decide_eq_true_2, bool_decide_eq_false_2, Hl' by lia.
    rewrite bool_decide_eq_true_2 by done.
    destruct (IH (mkCursor 0 (isEnd c) l') f) as (c' & HS & Hc');
      [done | done | simpl; lia | simpl in Hfuel; lia | done |].
    exists c'. split; [done |]. right. destruct Hc' as [-> | (l & Hin & Hz & ->)].
    + exists l'. split; [apply list_elem_of_here | done].
    + exists l. split; [by apply list_elem_of_further | done].
Qed.

(** From the last cell of a leaf on: the first entry to the right. *)
Lemma skip_next ls c fuel y rest :
  chain table (curNode c) ls → Forall leaf_wf ls →
  cellnum c + 1 >= numKeys (curNode c) → (List.length ls ≤ fuel)%nat →
  concat (valid <$> ls) = y :: rest →
  ∃ l' ls', StepForward fuel table c = Some (false, mkCursor 0 (isEnd c) l') ∧
            0 < numKeys l' ∧ chain table l' ls' ∧ Forall leaf_wf (l' :: ls') ∧
            valid l' ++ concat (valid <$> ls') = y :: rest ∧
            (l' :: ls') `suffix_of` ls.
Proof.
  revert c fuel. induction ls as [| l' ls' IH]; intros c fuel Hch Hwf Hlast Hfuel Hcat;
    [done |].
  inversion Hch as [| ? ? ? Hpn Hl' Hch']; simplify_eq.
  pose proof Hwf as Hwf0. apply Forall_cons in Hwf as [Hwf' Hwf]. simpl in Hcat.
  rewrite StepForward_unfold.
  rewrite bool_decide_eq_true_2, bool_decide_eq_false_2, Hl' by lia.
  case_bool_decide as Hempty.
  - destruct fuel as [| f]; [simpl in Hfuel; lia |].
    assert (valid l' = []) as Hv by (apply valid_empty; [done | lia]).
    rewrite Hv in Hcat. simpl in Hcat.
    destruct (IH (mkCursor 0 (isEnd c) l') f) as (l'' & ls'' & HS & Hpos & Hch'' & Hwf'' & Hcat'' & Hsuf);
      [done | done | simpl; lia | simpl in Hfuel; lia | done |].
    exists l'', ls''. repeat split; try done. by apply suffix_cons_r.
  - exists l', ls'. repeat split; try done. unfold leaf_wf in Hwf'. lia.
Qed.

Lemma ahead_valid_cell c ls :
  0 ≤ cellnum c < numKeys (curNode c) → leaf_wf (curNode c) →
  ahead c ls =
    getEntry (curNode c) (cellnum c) ::
      (drop (S (Z.to_nat (cellnum c))) (valid (curNode c)) ++ concat (valid <$> ls)).
Proof.
  intros Hc Hwf. unfold ahead.
  by rewrite (drop_S _ _ _ (getEntry_valid _ _ Hc Hwf)).
Qed.

Lemma ahead_rest c ls :
  0 ≤ cellnum c < numKeys (curNode c) → leaf_wf (curNode c) →
  drop 1 (ahead c ls) =
    drop (S (Z.to_nat (cellnum c))) (valid (curNode c)) ++ concat (valid <$> ls).
Proof. intros Hc Hwf. by rewrite ahead_valid_cell. Qed.

(** One step from a counted cell when no entry lies ahead: the answer is
    [true], and the cursor stays or ends on an empty leaf. *)
Lemma next_end c ls fuel :
  0 ≤ cellnum c < numKeys (curNode c) →
  chain table (curNode c) ls → Forall leaf_wf (curNode c :: ls) →
  (List.length ls ≤ fuel)%nat →
  drop 1 (ahead c ls) = [] →
  ∃ c', StepForward fuel table c = Some (true, c') ∧
        (c' = c ∨ ∃ l, l ∈ ls ∧ numKeys l = 0 ∧ c' = mkCursor 0 (isEnd c) l).
Proof.
  intros Hc Hch Hwf Hfuel Hnil. apply Forall_cons in Hwf as [Hwf0 Hwf].
  rewrite ahead_rest in Hnil by done.
  apply app_eq_nil in Hnil as [Hd Hnil].
  apply (f_equal List.length) in Hd. rewrite length_drop in Hd.
  change (List.length []) with 0%nat in Hd.
  pose proof (valid_length _ Hwf0).
  apply skip_end; try done. lia.
Qed.

(** One step from a counted cell when an entry lies ahead: the answer is
    [false] and the cursor is on that entry. *)
Lemma next_next c ls fuel y rest :
  0 ≤ cellnum c < numKeys (curNode c) →
  chain table (curNode c) ls → Forall leaf_wf (curNode c :: ls) →
  (List.length ls ≤ fuel)%nat →
  drop 1 (ahead c ls) = y :: rest →
  ∃ c' ls', StepForward fuel table c = Some (false, c') ∧ isEnd c' = isEnd c ∧
            0 ≤ cellnum c' < numKeys (curNode c') ∧
            chain table (curNode c') ls' ∧ Forall leaf_wf (curNode c' :: ls') ∧
            ahead c' ls' = y :: rest ∧ ls' `suffix_of` ls.
Proof.
  intros Hc Hch Hwf Hfuel Htl. pose proof Hwf as Hwf1.
  apply Forall_cons in Hwf as [Hwf0 Hwf].
  rewrite ahead_rest in Htl by done.
  pose proof (valid_length _ Hwf0) as Hlen.
  destruct (decide (cellnum c + 1 >= numKeys (curNode c))) as [Hlast | Hin].
  - rewrite drop_ge in Htl by lia. simpl in Htl.
    destruct (skip_next ls c fuel y rest) as (l' & ls' & HS & Hpos & Hch' & Hwf' & Hcat & Hsuf);
      try done.
    exists (mkCursor 0 (isEnd c) l'), ls'. simpl. repeat split; try done; try lia.
    + etrans; [| exact Hsuf]. by apply suffix_cons_r.
  - exists (mkCursor (cellnum c + 1) (isEnd c) (curNode c)), ls. simpl.
    repeat split; try done; try lia.
    + rewrite StepForward_unfold. by rewrite bool_decide_eq_false_2.
    + unfold ahead. simpl.
      by replace (Z.to_nat (cellnum c + 1)) with (S (Z.to_nat (cellnum c))) by lia.
Qed.

(** X15. StepForward from an entry of the tree: it answers true exactly when
    no entry lies ahead in the rest of the leaf and in the leaves to the
    right, however many empty leaves there are; when it answers false the
    cursor is on the next entry. It never changes isEnd. *)
Theorem StepForward_next_entry c ls fuel :
  0 ≤ cellnum c < numKeys (curNode c) →
  chain table (curNode c) ls → Forall leaf_wf (curNode c :: ls) →
  (List.length ls ≤ fuel)%nat →
  ∃ atEnd c',
    StepForward fuel table c = Some (atEnd, c') ∧ isEnd c' = isEnd c ∧
    head (drop 1 (ahead c ls)) =
      if atEnd then None else Some (getEntry (curNode c') (cellnum c')).
Proof.
  intros Hc Hch Hwf Hfuel. destruct (drop 1 (ahead c ls)) as [| y rest] eqn:Htl.
  - destruct (next_end c ls fuel) as (c' & HS & Hc'); try done.
    exists true, c'. repeat split; try done. by eapply StepForward_isEnd.
  - destruct (next_next c ls fuel y rest)
      as (c' & ls' & HS & Hend & Hc' & Hch' & Hwf' & Hah & Hsuf); try done.
    exists false, c'. repeat split; try done.
    apply Forall_cons in Hwf' as [Hwf' _].
    rewrite ahead_valid_cell in Hah by done. by simplify_eq.
Qed.

(** The loop of a range scan that meets a key not below [endKey]. *)
Lemma rangeLoop_exact pre c ls fuel endKey e post acc :
  0 ≤ cellnum c < numKeys (curNode c) → isEnd c = false →
  chain table (curNode c) ls → Forall leaf_wf (curNode c :: ls) →
  ahead c ls = pre ++ e :: post →
  Forall (λ x, GetKey x < endKey) pre → endKey ≤ GetKey e →
  (List.length pre + List.length ls ≤ fuel)%nat →
  rangeLoop fuel table endKey c (getEntry (curNode c) (cellnum c)) acc =
    Some (acc ++ pre, None).
Proof.
  revert c ls fuel acc.
  induction pre as [| x pre IH]; intros c ls fuel acc Hc Hend Hch Hwf Hah Hpre He Hfuel.
  - pose proof Hwf as Hwf0. apply Forall_cons in Hwf0 as [Hwf0 _].
    rewrite ahead_valid_cell in Hah by done. simpl in Hah. simplify_eq.
    rewrite rangeLoop_unfold, bool_decide_eq_false_2 by lia. simpl.
    by rewrite app_nil_r.
  - pose proof Hwf as Hwf0. apply Forall_cons in Hwf0 as [Hwf0 _].
    pose proof Hah as Hah0. rewrite ahead_valid_cell in Hah0 by done.
    simpl in Hah0. injection Hah0 as Hx Htl.
    apply Forall_cons in Hpre as [Hxlt Hpre].
    rewrite rangeLoop_unfold, Hx, bool_decide_eq_true_2 by lia.
    unfold IsEnd. rewrite Hend. simpl.
    destruct fuel as [| f]; [simpl in Hfuel; lia |].
    assert (drop 1 (ahead c ls) = pre ++ e :: post) as Hd by (by rewrite Hah).
    destruct (pre ++ e :: post) as [| y rest] eqn:Hrest; [by destruct pre |].
    destruct (next_next c ls f y rest)
      as (c' & ls' & HS & Hend' & Hc' & Hch' & Hwf' & Hah' & Hsuf); try done.
    { simpl in Hfuel. lia. }
    rewrite HS. unfold GetEntry. rewrite Hend', Hend.
    rewrite (IH c' ls' f (acc ++ [x])); try done.
    + by rewrite <- app_assoc.
    + congruence.
    + apply suffix_length in Hsuf. simpl in Hfuel. lia.
Qed.

Lemma TableFind_cursor fuel key c :
  TableFind fuel table key = Some (Ok c) → leaf_wf (curNode c) → isEnd c = false →
  0 ≤ cellnum c < numKeys (curNode c).
Proof.
  unfold TableFind, keyToNodeEntry.
  destruct (descend fuel _ table (rootPN table)) as [[leaf | | |] |]; try done.
  intros [= <-]. simpl. intros Hwf Hend. apply bool_decide_eq_false in Hend.
  pose proof (insertionPoint_le (valid leaf) key) as Hle.
  pose proof (valid_length _ Hwf). unfold searchLeaf in *. fold (valid leaf) in *. lia.
Qed.

Lemma TableFind_mono f f' key r :
  TableFind f table key = Some r → (f ≤ f')%nat → TableFind f' table key = Some r.
Proof.
  unfold TableFind, keyToNodeEntry. intros HT Hle.
  destruct (descend f _ table (rootPN table)) as [r0 |] eqn:HD; [| done].
  by rewrite (descend_mono _ _ _ _ _ HD Hle).
Qed.


(** The loop of a range scan when every key ahead is below [endKey]. *)
Lemma rangeLoop_unbounded fuel endKey c ls acc :
  0 ≤ cellnum c < numKeys (curNode c) → isEnd c = false →
  chain table (curNode c) ls → Forall leaf_wf (curNode c :: ls) →
  Forall (λ l, numKeys l ≠ 0) ls →
  Forall (λ x, GetKey x < endKey) (ahead c ls) →
  rangeLoop fuel table endKey c (getEntry (curNode c) (cellnum c)) acc = None.
Proof.
  revert c ls acc.
  induction fuel as [| f IH]; intros c ls acc Hc Hend Hch Hwf Hne Hlt;
    pose proof Hwf as Hwf0; apply Forall_cons in Hwf0 as [Hwf0 _];
    pose proof Hlt as Hlt0; rewrite ahead_valid_cell in Hlt0 by done;
    apply Forall_cons in Hlt0 as [Hx Htl];
    rewrite rangeLoop_unfold, bool_decide_eq_true_2 by lia;
    unfold IsEnd; rewrite Hend; simpl; [done |].
  destruct (StepForward f table c) as [[atEnd c'] |] eqn:HS; [| done].
  apply (StepForward_mono _ (f `max` List.length ls)) in HS; [| lia].
  destruct (drop 1 (ahead c ls)) as [| y rest] eqn:Hd.
  - destruct (next_end c ls (f `max` List.length ls)) as (c'' & HS' & Hc''); try done; [lia |].
    rewrite HS in HS'. simplify_eq. destruct Hc'' as [-> | (l & Hin & Hz & _)].
    + unfold GetEntry. rewrite Hend. by eapply IH.
    + rewrite Forall_forall in Hne. by destruct (Hne l Hin).
  - destruct (next_next c ls (f `max` List.length ls) y rest)
      as (c'' & ls' & HS' & Hend' & Hc' & Hch' & Hwf' & Hah' & Hsuf); try done; [lia |].
    rewrite HS in HS'. simplify_eq.
    unfold GetEntry. rewrite Hend', Hend. apply (IH c'' ls'); try done.
    + congruence.
    + destruct Hsuf as [k ->]. by apply Forall_app in Hne as [_ ?].
    + rewrite Hah'. rewrite ahead_rest in Hd by done. by rewrite <- Hd.
Qed.

(** X17. A range scan whose endKey lies above every key from the position of
    startKey on never returns, on any tree without empty leaves to the
    right: the cursor stays on the last entry, IsEnd stays false, and the
    loop appends that entry again and again. *)
Theorem TableFindRange_never_returns fuel0 fuel startKey endKey c ls :
  TableFind fuel0 table startKey = Some (Ok c) → isEnd c = false →
  chain table (curNode c) ls → Forall leaf_wf (curNode c :: ls) →
  Forall (λ l, numKeys l ≠ 0) ls →
  Forall (λ x, GetKey x < endKey) (ahead c ls) →
  TableFindRange fuel table startKey endKey = None.
Proof.
  intros HT Hend Hch Hwf Hne Hlt.
  pose proof Hwf as Hwf0. apply Forall_cons in Hwf0 as [Hwf0 _].
  pose proof (TableFind_cursor _ _ _ HT Hwf0 Hend) as Hc.
  unfold TableFindRange.
  destruct (TableFind fuel table startKey) as [r |] eqn:HT'; [| done].
  assert (r = Ok c) as ->.
  { apply (TableFind_mono _ (fuel0 `max` fuel)) in HT; [| lia].
    apply (TableFind_mono _ (fuel0 `max` fuel)) in HT'; [| lia]. congruence. }
  unfold GetEntry. rewrite Hend. by eapply rangeLoop_unbounded.
Qed.

End cursor_more.

Lemma StepForward_next_entry_witness :
  ∃ atEnd c',
    btree.StepForward 1 btree_examples.two_leaves
      (btree.mkCursor 1 false btree_examples.leaf_a) = Some (atEnd, c') ∧
    btree.isEnd c' = false ∧
    head (drop 1 (btree.ahead (btree.mkCursor 1 false btree_examples.leaf_a)
                    [btree_examples.leaf_b])) =
      if atEnd then None else Some (btree.getEntry (btree.curNode c') (btree.cellnum c')).
Proof.
  apply (StepForward_next_entry btree_examples.two_leaves
           (btree.mkCursor 1 false btree_examples.leaf_a) [btree_examples.leaf_b] 1).
  - simpl. lia.
  - eapply btree.chain_next; [simpl; lia | vm_compute; reflexivity |].
    apply btree.chain_end. left. simpl. lia.
  - repeat constructor; simpl; lia.
  - simpl. lia.
Defined.


Lemma TableFindRange_never_returns_witness :
  btree.TableFindRange 9 btree_examples.two_leaves 2 100 = None.
Proof.
  apply (TableFindRange_never_returns btree_examples.two_leaves 1 9 2 100
           (btree.mkCursor 1 false btree_examples.leaf_a) [btree_examples.leaf_b]).
  - vm_compute. reflexivity.
  - reflexivity.
  - eapply btree.chain_next; [simpl; lia | vm_compute; reflexivity |].
    apply btree.chain_end. left. simpl. lia.
  - repeat constructor; simpl; lia.
  - repeat constructor. simpl. lia.
  - repeat constructor; simpl; lia.
Defined.

(** ** Join: building the hash index of a side *)

Section build_more.
Import btree hash_build.
Variable HashIndex : Type.
Variable hash_Insert : Z → Z → HashIndex → HashIndex.

Lemma TableStart_mono f f' table r :
  TableStart f table = Some r → (f ≤ f')%nat → TableStart f' table = Some r.
Proof.
  unfold TableStart. intros HT Hle.
  destruct (descend f _ table (rootPN table)) as [r0 |] eqn:HD; [| done].
  by rewrite (descend_mono _ _ _ _ _ _ HD Hle).
Qed.

Lemma descend_outcome f pick table pn r :
  descend f pick table pn = Some r → (∃ l, r = Ok l) ∨ (∃ e, r = Err e).
Proof.
  revert pn. induction f as [| f IH]; intros pn; simpl;
    destruct (GetPage table pn) as [[l | n] |]; intros HD; simplify_eq; eauto.
Qed.

Lemma TableStart_outcome f table r :
  TableStart f table = Some r → (∃ c, r = Ok c) ∨ (∃ e, r = Err e).
Proof.
  unfold TableStart.
  destruct (descend f _ table (rootPN table)) as [r0 |] eqn:HD; [| done].
  destruct (descend_outcome _ _ _ _ _ HD) as [[l ->] | [e ->]]; intros [= <-]; eauto.
Qed.

(** A cursor whose isEnd is false keeps the loop running for good. *)
Lemma buildLoop_not_end fuel table useKey c tempIndex :
  isEnd c = false → buildLoop HashIndex hash_Insert fuel table useKey c tempIndex = None.
Proof.
  revert c tempIndex. induction fuel as [| f IH]; intros c tempIndex Hend; [done |].
  simpl. unfold stepIfEnd, IsEnd, GetEntry. rewrite Hend. simpl. rewrite Hend.
  destruct (StepForward f table c) as [[atEnd c2] |] eqn:HS; [| done].
  apply IH. by rewrite (StepForward_isEnd _ _ _ _ _ HS).
Qed.

(** X18. buildHashIndex never returns an index into which it has inserted
    an entry: when it returns, it returns an error or the index exactly as
    it was opened, and the latter only if the leftmost leaf of the source
    table counts no cell. *)
Theorem buildHashIndex_returns_nothing_built fuel tempIndex sourceTable useKey r :
  buildHashIndex HashIndex hash_Insert fuel (Ok tempIndex) sourceTable useKey = Some r →
  (∃ e, r = Err e) ∨
  (r = Ok tempIndex ∧
   ∃ cursor, TableStart fuel sourceTable = Some (Ok cursor) ∧
             numKeys (curNode cursor) = 0).
Proof.
  unfold buildHashIndex.
  destruct (TableStart fuel sourceTable) as [[c | e | | e] |] eqn:HT; try done.
  - destruct (isEnd c) eqn:Hend; [| by rewrite buildLoop_not_end].
    assert (numKeys (curNode c) = 0) as Hz.
    { unfold TableStart in HT. destruct (descend _ _ _ _) as [[l | | |] |]; try done.
      simplify_eq. simpl in *. by apply bool_decide_eq_true in Hend. }
    destruct fuel as [| f]; [done |]. simpl. unfold stepIfEnd, IsEnd. rewrite Hend.
    destruct (StepForward f sourceTable c) as [[[] c'] |] eqn:HS; [| | done].
    + intros [= <-]. right. split; [done |]. by exists c.
    + unfold GetEntry. rewrite (StepForward_isEnd _ _ _ _ _ HS), Hend.
      intros [= <-]. left. by eexists.
  - intros [= <-]. left. by eexists.
  - by destruct (TableStart_outcome _ _ _ HT) as [[? ?] | [? ?]].
  - by destruct (TableStart_outcome _ _ _ HT) as [[? ?] | [? ?]].
Qed.

(** X19. On a source table whose leftmost leaf holds an entry, buildHashIndex
    never returns, with an index or with an error: isEnd is false from the
    start, so the loop is never left, and once the cursor is on the last
    entry that entry is inserted again and again. *)
Theorem buildHashIndex_never_returns fuel0 fuel tempIndex sourceTable useKey cursor :
  TableStart fuel0 sourceTable = Some (Ok cursor) →
  numKeys (curNode cursor) ≠ 0 →
  buildHashIndex HashIndex hash_Insert fuel (Ok tempIndex) sourceTable useKey = None.
Proof.
  intros HT Hne. unfold buildHashIndex.
  destruct (TableStart fuel sourceTable) as [r |] eqn:HT'; [| done].
  assert (r = Ok cursor) as ->.
  { apply (TableStart_mono _ (fuel0 `max` fuel)) in HT; [| lia].
    apply (TableStart_mono _ (fuel0 `max` fuel)) in HT'; [| lia]. congruence. }
  apply buildLoop_not_end.
  unfold TableStart in HT. destruct (descend _ _ _ _) as [[l | | |] |]; try done.
  simplify_eq. simpl in *. by apply bool_decide_eq_false.
Qed.

End build_more.

Lemma buildHashIndex_returns_nothing_built_witness :
  hash_build.buildHashIndex (list (Z * Z)) build_examples.pairs_Insert 1 (Ok [])
    build_examples.no_rows true = Some (Ok []) ∧
  ((∃ e, Ok [] = Err (A := list (Z * Z)) e) ∨
   (Ok [] = Ok (A := list (Z * Z)) [] ∧
    ∃ cursor, btree.TableStart 1 build_examples.no_rows = Some (Ok cursor) ∧
              btree.numKeys (btree.curNode cursor) = 0)).
Proof.
  split; [vm_compute; reflexivity |].
  apply (buildHashIndex_returns_nothing_built (list (Z * Z)) build_examples.pairs_Insert
           1 [] build_examples.no_rows true (Ok [])).
  vm_compute. reflexivity.
Defined.

Lemma buildHashIndex_never_returns_witness :
  hash_build.buildHashIndex (list (Z * Z)) build_examples.pairs_Insert 50 (Ok [])
    btree_examples.two_leaves true = None.
Proof.
  apply (buildHashIndex_never_returns (list (Z * Z)) build_examples.pairs_Insert 1 50 []
           btree_examples.two_leaves true (btree.mkCursor 0 false btree_examples.leaf_a)).
  - vm_compute. reflexivity.
  - simpl. lia.
Defined.

(** ** The doubly linked list *)

Section list_more.
Import linkedlist.
Context {V : Type}.
Implicit Types (h : Heap V) (l : positive) (pvs : list (positive * V)) (p : positive)
  (k : Link V) (prev nxt : option positive).

Lemma first_loc_app pvs1 pvs2 nxt :
  first_loc (pvs1 ++ pvs2) nxt = first_loc pvs1 (first_loc pvs2 nxt).
Proof. by destruct pvs1. Qed.

Lemma last_loc_cons (pv : positive * V) pvs prev :
  last_loc (pv :: pvs) prev = last_loc pvs (Some pv.1).
Proof. unfold last_loc. rewrite last_cons. by destruct (last pvs). Qed.

Lemma last_loc_app pvs1 pvs2 prev :
  last_loc (pvs1 ++ pvs2) prev = last_loc pvs2 (last_loc pvs1 prev).
Proof. unfold last_loc. rewrite last_app. by destruct (last pvs2). Qed.

Lemma first_loc_fmap (g : V → V) pvs nxt :
  first_loc (prod_map id g <$> pvs) nxt = first_loc pvs nxt.
Proof. by destruct pvs. Qed.

Lemma last_loc_fmap (g : V → V) pvs prev :
  last_loc (prod_map id g <$> pvs) prev = last_loc pvs prev.
Proof. unfold last_loc. rewrite fmap_last. by destruct (last pvs). Qed.

Lemma seg_app h l prev pvs1 pvs2 nxt :
  seg h l prev (pvs1 ++ pvs2) nxt ↔
  seg h l prev pvs1 (first_loc pvs2 nxt) ∧ seg h l (last_loc pvs1 prev) pvs2 nxt.
Proof.
  revert prev. induction pvs1 as [| pv pvs1 IH]; intros prev.
  - simpl. unfold last_loc. simpl. naive_solver.
  - simpl. rewrite IH, first_loc_app, last_loc_cons. naive_solver.
Qed.

(** A segment depends only on the links it names. *)
Lemma seg_frame h h' l prev pvs nxt :
  (∀ p, p ∈ pvs.*1 → links h' !! p = links h !! p) →
  seg h l prev pvs nxt → seg h' l prev pvs nxt.
Proof.
  revert prev. induction pvs as [| pv pvs IH]; intros prev Hsame; [done |].
  simpl. intros [Hp Hrest]. split.
  - rewrite Hsame; [done |]. simpl. apply list_elem_of_here.
  - apply IH; [| done]. intros p Hin. apply Hsame. simpl. by apply list_elem_of_further.
Qed.

Lemma seg_in h l prev pvs nxt p :
  seg h l prev pvs nxt → p ∈ pvs.*1 →
  ∃ k, links h !! p = Some k ∧ link_list k = Some l.
Proof.
  revert prev. induction pvs as [| pv pvs IH]; intros prev; simpl.
  - by intros _ ?%elem_of_nil.
  - intros [Hp Hrest] [-> | Hin]%elem_of_cons; [by eexists | by eapply IH].
Qed.

(** Two lists share no link, and work on one leaves the other as it is. *)
Lemma is_list_frame h h' l l2 pvs2 :
  l2 ≠ l →
  lists h' !! l2 = lists h !! l2 →
  (∀ p k, links h !! p = Some k → link_list k ≠ Some l → links h' !! p = Some k) →
  is_list h l2 pvs2 → is_list h' l2 pvs2.
Proof.
  intros Hne Hlists Hlinks (Hl & Hnd & Hseg). split; [by rewrite Hlists | split; [done |]].
  eapply seg_frame; [| exact Hseg]. intros p Hin.
  destruct (seg_in _ _ _ _ _ _ Hseg Hin) as (k & Hk & Hkl).
  rewrite Hk. apply Hlinks; [done |]. rewrite Hkl. congruence.
Qed.

Lemma fresh_link h : links h !! fresh (dom (links h)) = None.
Proof. apply not_elem_of_dom, is_fresh. Qed.

Lemma is_list_fresh h l pvs p : is_list h l pvs → links h !! p = None → p ∉ pvs.*1.
Proof.
  intros (_ & _ & Hseg) Hp Hin.
  destruct (seg_in _ _ _ _ _ _ Hseg Hin) as (k & Hk & _). congruence.
Qed.

(** *** Running the heap operations *)

Lemma run_bind {S A B : Type} (m : M S A) (f : A → M S B) s a s1 :
  m s = (Ok a, s1) → bind m f s = f a s1.
Proof. unfold bind. by intros ->. Qed.

Lemma run_deref_list h l x : lists h !! l = Some x → deref_list (Some l) h = (Ok x, h).
Proof. unfold deref_list. simpl. by intros ->. Qed.

Lemma run_deref_link h p k : links h !! p = Some k → deref_link (Some p) h = (Ok k, h).
Proof. unfold deref_link. simpl. by intros ->. Qed.

Lemma run_store_list h l f x :
  lists h !! l = Some x →
  store_list (Some l) f h = (Ok tt, mkHeap (<[l := f x]> (lists h)) (links h)).
Proof. unfold store_list. by intros ->. Qed.

Lemma run_store_link h p f k :
  links h !! p = Some k →
  store_link (Some p) f h = (Ok tt, mkHeap (lists h) (<[p := f k]> (links h))).
Proof. unfold store_link. by intros ->. Qed.

Ltac heap_norm :=
  cbn beta iota delta [list_head list_tail link_list link_prev link_next link_value
    set_head set_tail set_list set_prev set_next set_value lists links fst snd].

Ltac heap_lookup :=
  heap_norm;
  repeat first [rewrite lookup_insert_eq | rewrite lookup_insert_ne by congruence];
  first [eassumption | reflexivity].

Ltac heap_step :=
  heap_norm;
  first
    [ erewrite run_bind;
      [| first [ eapply run_deref_list; heap_lookup
               | eapply run_deref_link; heap_lookup
               | eapply run_store_list; heap_lookup
               | eapply run_store_link; heap_lookup
               | reflexivity ] ]
    | erewrite run_store_link by heap_lookup
    | erewrite run_store_list by heap_lookup ];
  heap_norm.

(** X20. PushHead on a list puts a new link in front of the links the list
    holds and returns it; the link was at no address in use; every other
    list holds what it held. *)
Theorem PushHead_spec h l pvs (value : V) :
  is_list h l pvs →
  ∃ p h', PushHead l value h = (Ok (Some p), h') ∧ links h !! p = None ∧
          is_list h' l ((p, value) :: pvs) ∧
          ∀ l2 pvs2, l2 ≠ l → is_list h l2 pvs2 → is_list h' l2 pvs2.
Proof.
  intros Hlist. pose proof Hlist as (Hl & Hnd & Hseg).
  pose proof (fresh_link h) as Hp.
  pose proof (is_list_fresh _ _ _ _ Hlist Hp) as Hnin.
  exists (fresh (dom (links h))). unfold PushHead.
  destruct pvs as [| [o w] rest].
  - change (first_loc [] None) with (@None positive) in Hl.
    change (last_loc [] None) with (@None positive) in Hl.
    do 6 heap_step. unfold ret.
    eexists. split; [done |]. split; [done |]. split.
    + split; [| split]; simpl.
      * by rewrite lookup_insert_eq.
      * apply NoDup_singleton.
      * by rewrite lookup_insert_eq.
    + intros l2 pvs2 Hne. apply is_list_frame with (l := l); [done | |]; simpl.
      * by rewrite !lookup_insert_ne.
      * intros r k Hr _.
        assert (r ≠ fresh (dom (links h))) by congruence.
        by rewrite lookup_insert_ne by congruence.
  - destruct Hseg as [Ho Hrest]. simpl in Ho.
    change (first_loc ((o, w) :: rest) None) with (Some o) in Hl.
    assert (fresh (dom (links h)) ≠ o) as Hpo
      by (intros Heq; apply Hnin; rewrite Heq; simpl; apply list_elem_of_here).
    do 7 heap_step. unfold ret.
    eexists. split; [done |]. split; [done |]. split.
    + split; [| split]; simpl.
      * rewrite lookup_insert_eq. by rewrite !last_loc_cons.
      * apply NoDup_cons. split; [exact Hnin | exact Hnd].
      * rewrite lookup_insert_ne, lookup_insert_eq by done.
        split; [done |]. rewrite lookup_insert_eq. split; [done |].
        eapply seg_frame; [| exact Hrest]. simpl. intros r Hr.
        simpl in Hnd. apply NoDup_cons in Hnd as [Hno _].
        assert (r ≠ o) by (intros ->; by apply Hno).
        assert (r ≠ fresh (dom (links h)))
          by (intros ->; apply Hnin; simpl; by apply list_elem_of_further).
        by rewrite !lookup_insert_ne by congruence.
    + intros l2 pvs2 Hne. apply is_list_frame with (l := l); [done | |]; simpl.
      * by rewrite !lookup_insert_ne.
      * intros r k Hr Hk.
        assert (r ≠ o) by (intros ->; rewrite Ho in Hr; simplify_eq; by apply Hk).
        assert (r ≠ fresh (dom (links h))) by congruence.
        by rewrite !lookup_insert_ne by congruence.
Qed.

Lemma first_loc_snoc pvs (pv : positive * V) nxt nxt' :
  first_loc (pvs ++ [pv]) nxt = first_loc (pvs ++ [pv]) nxt'.
Proof. by destruct pvs. Qed.

Lemma last_loc_snoc pvs (pv : positive * V) prev : last_loc (pvs ++ [pv]) prev = Some pv.1.
Proof. by rewrite last_loc_app. Qed.

Lemma last_loc_cons_any (pv : positive * V) pvs prev prev' :
  last_loc (pv :: pvs) prev = last_loc (pv :: pvs) prev'.
Proof. by rewrite !last_loc_cons. Qed.

(** The last link of a segment gets a new successor. *)
Lemma seg_snoc_set h h' l prev pvs q w nxt nxt' :
  seg h l prev (pvs ++ [(q, w)]) nxt →
  (∀ r, r ∈ pvs.*1 → links h' !! r = links h !! r) →
  links h' !! q = Some (mkLink (Some l) (last_loc pvs prev) nxt' w) →
  seg h' l prev (pvs ++ [(q, w)]) nxt'.
Proof.
  intros [Hpvs _]%seg_app Hsame Hq. apply seg_app. split.
  - by eapply seg_frame.
  - by split.
Qed.

(** The first link of a segment gets a new predecessor. *)
Lemma seg_cons_set h h' l prev prev' pvs n u nxt :
  seg h l prev ((n, u) :: pvs) nxt →
  (∀ r, r ∈ pvs.*1 → links h' !! r = links h !! r) →
  links h' !! n = Some (mkLink (Some l) prev' (first_loc pvs nxt) u) →
  seg h' l prev' ((n, u) :: pvs) nxt.
Proof.
  intros [_ Hpvs] Hsame Hn. split; [done |]. by eapply seg_frame.
Qed.

(** X21. PushTail on a list puts a new link behind the links the list holds
    and returns it; the link was at no address in use; every other list
    holds what it held. *)
Theorem PushTail_spec h l pvs (value : V) :
  is_list h l pvs →
  ∃ p h', PushTail l value h = (Ok (Some p), h') ∧ links h !! p = None ∧
          is_list h' l (pvs ++ [(p, value)]) ∧
          ∀ l2 pvs2, l2 ≠ l → is_list h l2 pvs2 → is_list h' l2 pvs2.
Proof.
  intros Hlist. pose proof Hlist as (Hl & Hnd & Hseg).
  pose proof (fresh_link h) as Hp.
  pose proof (is_list_fresh _ _ _ _ Hlist Hp) as Hnin.
  exists (fresh (dom (links h))). unfold PushTail.
  destruct pvs as [| [o w] pvs _] using rev_ind.
  - change (first_loc [] None) with (@None positive) in Hl.
    change (last_loc [] None) with (@None positive) in Hl.
    do 6 heap_step. unfold ret.
    eexists. split; [done |]. split; [done |]. split.
    + split; [| split]; simpl.
      * by rewrite lookup_insert_eq.
      * apply NoDup_singleton.
      * by rewrite lookup_insert_eq.
    + intros l2 pvs2 Hne. apply is_list_frame with (l := l); [done | |]; simpl.
      * by rewrite !lookup_insert_ne.
      * intros r k Hr _.
        assert (r ≠ fresh (dom (links h))) by congruence.
        by rewrite lookup_insert_ne by congruence.
  - pose proof Hseg as [Hpvs [Ho _]]%seg_app. simpl in Ho.
    rewrite last_loc_snoc in Hl. simpl in Hl.
    rewrite fmap_app in Hnd, Hnin. simpl in Hnd, Hnin.
    apply NoDup_app in Hnd as (Hnd & Hno & _).
    assert (fresh (dom (links h)) ≠ o) as Hpo
      by (intros Heq; apply Hnin; rewrite Heq; apply elem_of_app; right;
          apply list_elem_of_here).
    do 7 heap_step. unfold ret.
    eexists. split; [done |]. split; [done |]. split.
    + split; [| split]; simpl.
      * rewrite lookup_insert_eq. unfold set_tail. cbn [list_head].
        rewrite last_loc_snoc, (first_loc_app (pvs ++ [(o, w)])).
        do 2 f_equal. apply first_loc_snoc.
      * rewrite !fmap_app. simpl. apply NoDup_app. split; [| split].
        -- apply NoDup_app. split; [done | split; [done | apply NoDup_singleton]].
        -- intros r Hr ->%list_elem_of_singleton. by apply Hnin.
        -- apply NoDup_singleton.
      * apply seg_app. split.
        -- simpl. eapply seg_snoc_set; [exact Hseg | |]; simpl.
           ++ intros r Hr.
              assert (r ≠ o)
                by (intros ->; apply (Hno o Hr); apply list_elem_of_here).
              assert (r ≠ fresh (dom (links h)))
                by (intros ->; apply Hnin; apply elem_of_app; by left).
              by rewrite !lookup_insert_ne by congruence.
           ++ by rewrite lookup_insert_eq.
        -- rewrite last_loc_snoc. simpl.
           by rewrite lookup_insert_ne, lookup_insert_eq by congruence.
    + intros l2 pvs2 Hne. apply is_list_frame with (l := l); [done | |]; simpl.
      * by rewrite !lookup_insert_ne.
      * intros r k Hr Hk.
        assert (r ≠ o) by (intros ->; rewrite Ho in Hr; simplify_eq; by apply Hk).
        assert (r ≠ fresh (dom (links h))) by congruence.
        by rewrite !lookup_insert_ne by congruence.
Qed.

End list_more.
